(** * CFDRenderer: the simulation core of [Simulator.cpp]

    A shallow embedding of [src/CFD/Simulator.cpp]: the named force and torque
    registries, the per-frame collision loop, the particle and rigid-box
    integrators, the frame loop and the teardown of the collision world.

    Conventions.
    - C++ [float]/[double] values are idealised as real numbers ([R]); every
      arithmetic expression keeps the operand order and the parenthesisation
      of the source.
    - [glm] (vectors, quaternions, 3x3 matrices) and [reactphysics3d] (the
      collision world) are third-party libraries; the few operations of
      theirs that the simulator calls are written out below.
    - A [Box*]/[Sphere*] is the position of the object in [boxes_]/[spheres_].
    - Everything the program writes or asks of a collaborator is appended, in
      program order, to the [log] of the simulator state. *)

From Stdlib Require Import Reals Lra Lia ZArith NArith RNsatz.
From stdpp Require Import gmap strings list fin_maps.

Local Open Scope R_scope.

(** ** glm: vec3, quat, mat3 *)

Record vec3 := Vec3 { vx : R; vy : R; vz : R }.

Record quat := Quat { qw : R; qx : R; qy : R; qz : R }.

(** [glm::mat3] is column major: [m_cr] is [m[c][r]]. *)
Record mat3 := Mat3 {
  m00 : R; m01 : R; m02 : R;
  m10 : R; m11 : R; m12 : R;
  m20 : R; m21 : R; m22 : R }.

(** [glm::vec3(0.f)] *)
Definition vec3_zero : vec3 := Vec3 0 0 0.

(** [a + b] *)
Definition vadd (a b : vec3) : vec3 :=
  Vec3 (vx a + vx b) (vy a + vy b) (vz a + vz b).

(** [s * v] *)
Definition smulv (s : R) (v : vec3) : vec3 :=
  Vec3 (s * vx v) (s * vy v) (s * vz v).

(** [v * s] *)
Definition vmuls (v : vec3) (s : R) : vec3 :=
  Vec3 (vx v * s) (vy v * s) (vz v * s).

(** [v / s] *)
Definition vdivs (v : vec3) (s : R) : vec3 :=
  Vec3 (vx v / s) (vy v / s) (vz v / s).

(** [a - b] *)
Definition vsub (a b : vec3) : vec3 :=
  Vec3 (vx a - vx b) (vy a - vy b) (vz a - vz b).

(** [glm::quat(s, v)] *)
Definition quat_sv (s : R) (v : vec3) : quat := Quat s (vx v) (vy v) (vz v).

(** [p + q] *)
Definition qadd (p q : quat) : quat :=
  Quat (qw p + qw q) (qx p + qx q) (qy p + qy q) (qz p + qz q).

(** [s * q] *)
Definition smulq (s : R) (q : quat) : quat :=
  Quat (s * qw q) (s * qx q) (s * qy q) (s * qz q).

(** [q * s] *)
Definition qmuls (q : quat) (s : R) : quat :=
  Quat (qw q * s) (qx q * s) (qy q * s) (qz q * s).

(** [p * q], the Hamilton product *)
Definition qmul (p q : quat) : quat :=
  Quat (qw p * qw q - qx p * qx q - qy p * qy q - qz p * qz q)
       (qw p * qx q + qx p * qw q + qy p * qz q - qz p * qy q)
       (qw p * qy q + qy p * qw q + qz p * qx q - qx p * qz q)
       (qw p * qz q + qz p * qw q + qx p * qy q - qy p * qx q).

(** [glm::dot(p, q)] *)
Definition qdot (p q : quat) : R :=
  (qw p * qw q + qx p * qx q) + (qy p * qy q + qz p * qz q).

(** [glm::length(q)] *)
Definition qlength (q : quat) : R := sqrt (qdot q q).

(** [glm::normalize(q)]: the identity quaternion when the length is not
    positive, else every component times [1 / length]. *)
Definition normalize (q : quat) : quat :=
  let len := qlength q in
  if Rle_dec len 0 then Quat 1 0 0 0
  else
    let oneOverLen := 1 / len in
    Quat (qw q * oneOverLen) (qx q * oneOverLen)
         (qy q * oneOverLen) (qz q * oneOverLen).

(** [glm::toMat3(q)] *)
Definition toMat3 (q : quat) : mat3 :=
  let qxx := qx q * qx q in
  let qyy := qy q * qy q in
  let qzz := qz q * qz q in
  let qxz := qx q * qz q in
  let qxy := qx q * qy q in
  let qyz := qy q * qz q in
  let qwx := qw q * qx q in
  let qwy := qw q * qy q in
  let qwz := qw q * qz q in
  Mat3 (1 - 2 * (qyy + qzz)) (2 * (qxy + qwz)) (2 * (qxz - qwy))
       (2 * (qxy - qwz)) (1 - 2 * (qxx + qzz)) (2 * (qyz + qwx))
       (2 * (qxz + qwy)) (2 * (qyz - qwx)) (1 - 2 * (qxx + qyy)).

(** [glm::transpose(m)] *)
Definition transpose (m : mat3) : mat3 :=
  Mat3 (m00 m) (m10 m) (m20 m)
       (m01 m) (m11 m) (m21 m)
       (m02 m) (m12 m) (m22 m).

(** [a * b] on matrices *)
Definition mmul (a b : mat3) : mat3 :=
  Mat3 (m00 a * m00 b + m10 a * m01 b + m20 a * m02 b)
       (m01 a * m00 b + m11 a * m01 b + m21 a * m02 b)
       (m02 a * m00 b + m12 a * m01 b + m22 a * m02 b)
       (m00 a * m10 b + m10 a * m11 b + m20 a * m12 b)
       (m01 a * m10 b + m11 a * m11 b + m21 a * m12 b)
       (m02 a * m10 b + m12 a * m11 b + m22 a * m12 b)
       (m00 a * m20 b + m10 a * m21 b + m20 a * m22 b)
       (m01 a * m20 b + m11 a * m21 b + m21 a * m22 b)
       (m02 a * m20 b + m12 a * m21 b + m22 a * m22 b).

(** [m * v] *)
Definition mmulv (m : mat3) (v : vec3) : vec3 :=
  Vec3 (m00 m * vx v + m10 m * vy v + m20 m * vz v)
       (m01 m * vx v + m11 m * vy v + m21 m * vz v)
       (m02 m * vx v + m12 m * vy v + m22 m * vz v).

Definition mat3_zero : mat3 := Mat3 0 0 0 0 0 0 0 0 0.

Definition quat_identity : quat := Quat 1 0 0 0.

(** ** Bodies *)

(** The members of [Sphere] that the simulator touches. [colliders_] holds
    the contact partners found for the current step. *)
Record Sphere := mkSphere {
  sphere_pos : vec3;
  sphere_vel : vec3;
  sphere_mass : R;
  colliders_ : list nat }.

(** The members of [Box] that the simulator touches. *)
Record Box := mkBox {
  color : vec3;
  center : vec3;
  dims : vec3;
  vel : vec3;
  P : vec3;
  inv_mass : R;
  orientation : quat;
  IBodyInv : mat3;
  IInv : mat3;
  L : vec3;
  angular_vel : vec3 }.

(** ** Output and collaborator events *)

(** One item put on a stream with [<<]. *)
Inductive Output :=
| OutStr (s : string)
| OutInt (z : Z)
| OutFloat (r : R).

Inductive Event :=
| EvCout (items : list Output)
| EvCerr (items : list Output)
| EvDraw
| EvSphereCollisions
| EvClear
| EvTestCollision (contacts : bool)
| EvSolve
| EvIntegrateSpheres
| EvIntegrateBoxes
| EvCreateBody (body : nat)
| EvSetTransform (body : nat)
| EvDestroyBody (body : nat)
| EvDestroyWorld
| EvPrintFps.

Definition newline : string := String (Ascii.ascii_of_nat 10) EmptyString.

(** ** The collision world of reactphysics3d *)

Record Transform := mkTransform {
  transform_pos : vec3;
  transform_orientation : quat }.

(** A collision body: its transform and its user data (the [Box*]). *)
Record CollisionBody := mkBody {
  body_transform : Transform;
  body_user_data : option nat }.

(** The world owns its live bodies, keyed by handle. *)
Record PhysicsWorld := mkWorld {
  world_bodies : gmap nat CollisionBody;
  world_next : nat }.

Definition createPhysicsWorld : PhysicsWorld := mkWorld ∅ 0.

Definition createCollisionBody (t : Transform) (w : PhysicsWorld)
  : nat * PhysicsWorld :=
  (world_next w,
   mkWorld (<[world_next w := mkBody t None]> (world_bodies w))
           (S (world_next w))).

Definition setUserData (body box : nat) (w : PhysicsWorld) : PhysicsWorld :=
  mkWorld (alter (fun b => mkBody (body_transform b) (Some box)) body
                 (world_bodies w))
          (world_next w).

Definition getUserData (body : nat) (w : PhysicsWorld) : option nat :=
  match world_bodies w !! body with
  | Some b => body_user_data b
  | None => None
  end.

Definition setTransform (body : nat) (t : Transform) (w : PhysicsWorld)
  : PhysicsWorld :=
  mkWorld (alter (fun b => mkBody t (body_user_data b)) body (world_bodies w))
          (world_next w).

Definition destroyCollisionBody (body : nat) (w : PhysicsWorld)
  : PhysicsWorld :=
  mkWorld (delete body (world_bodies w)) (world_next w).

(** ** The force and torque registries *)

(** [static const glm::vec3 GRAVITY(0.f, -.9f, 0.f)] *)
Definition GRAVITY : vec3 := Vec3 0 (-0.9) 0.

(** [for (f : registry) acc += f.second / mass], from [acc = 0]. *)
Definition accumulate_div (registry : gmap string vec3) (mass : R) : vec3 :=
  foldl (fun acc f => vadd acc (vdivs f.2 mass)) vec3_zero
        (map_to_list registry).

(** [for (f : registry) acc += f.second * inv_mass], from [acc = 0]. *)
Definition accumulate_mul (registry : gmap string vec3) (inv_mass : R)
  : vec3 :=
  foldl (fun acc f => vadd acc (vmuls f.2 inv_mass)) vec3_zero
        (map_to_list registry).

(** The net vector of a registry: the sum of all its entries. *)
Definition net (registry : gmap string vec3) : vec3 :=
  foldl (fun acc f => vadd acc f.2) vec3_zero (map_to_list registry).

(** ** Function-local statics *)

(** [init] of [integrate], [lowSphere] and [cnt] of [integrate_spheres]. *)
Record Statics := mkStatics {
  integrate_init : bool;
  lowSphere : option nat;
  cnt : N }.

(** [cnt++] on a 64-bit [size_t]. *)
Definition size_t_succ (n : N) : N := ((n + 1) mod 2 ^ 64)%N.

(** ** One particle of [integrate_spheres] *)

Definition integrate_sphere (h damping : R) (forces : gmap string vec3)
    (idx : nat) (sphere : Sphere) (st : Statics)
  : Sphere * Statics * list Event :=
  let acc := accumulate_div forces (sphere_mass sphere) in
  (* internal forces calculations *)
  let damping_force := smulv (- damping) (sphere_vel sphere) in
  let acc := vadd acc (vdivs damping_force (sphere_mass sphere)) in
  let low :=
    match lowSphere st with
    | None =>
        if Rlt_dec (vy (sphere_pos sphere)) (-2.5) then Some idx else None
    | Some l => Some l
    end in
  let is_low := bool_decide (low = Some idx) in
  let p := sphere_pos sphere in
  let '(cnt1, out1) :=
    if is_low then
      (size_t_succ (cnt st),
       if (cnt st mod 100 =? 0)%N then
         [EvCout [OutStr "h:"; OutFloat h; OutStr ", prev pos (";
                  OutFloat (vx p); OutStr ","; OutFloat (vy p); OutStr ",";
                  OutFloat (vz p); OutStr (")" +:+ newline)]]
       else [])
    else (cnt st, []) in
  (* semi-implicit euler integration *)
  let vel' := vadd (sphere_vel sphere) (smulv h acc) in
  let pos' := vadd (sphere_pos sphere) (smulv h vel') in
  let out2 :=
    if is_low && (cnt1 mod 100 =? 0)%N then
      [EvCout [OutStr "curr pos ("; OutFloat (vx pos'); OutStr ",";
               OutFloat (vy pos'); OutStr ","; OutFloat (vz pos');
               OutStr (")" +:+ newline +:+ newline)]]
    else [] in
  (mkSphere pos' vel' (sphere_mass sphere) [],
   mkStatics (integrate_init st) low cnt1,
   out1 ++ out2).

(** The loop over [spheres_], from position [idx] on. *)
Fixpoint integrate_spheres_from (h damping : R) (forces : gmap string vec3)
    (idx : nat) (spheres : list Sphere) (st : Statics)
  : list Sphere * Statics * list Event :=
  match spheres with
  | [] => ([], st, [])
  | sphere :: rest =>
      let '(sphere', st1, out1) :=
        integrate_sphere h damping forces idx sphere st in
      let '(rest', st2, out2) :=
        integrate_spheres_from h damping forces (S idx) rest st1 in
      (sphere' :: rest', st2, out1 ++ out2)
  end.

(** The particle update as the specification words it: acceleration is the
    sum of the registered forces over the mass minus damping times velocity
    over the mass; velocity first, position from the new velocity, contact
    partners cleared. *)
Definition particle_update_spec (h damping : R) (forces : gmap string vec3)
    (sphere : Sphere) : Sphere :=
  let acceleration :=
    vsub (vdivs (net forces) (sphere_mass sphere))
         (vdivs (smulv damping (sphere_vel sphere)) (sphere_mass sphere)) in
  let velocity := vadd (sphere_vel sphere) (smulv h acceleration) in
  let position := vadd (sphere_pos sphere) (smulv h velocity) in
  mkSphere position velocity (sphere_mass sphere) [].

(** ** One box of [integrate_boxes] *)

Definition integrate_box (h damping : R) (forces torques : gmap string vec3)
    (box : Box) : Box :=
  let acc := accumulate_mul forces (inv_mass box) in
  let torque := accumulate_mul torques (inv_mass box) in
  (* internal forces calculations *)
  let damping_force := smulv (- damping) (vel box) in
  let acc := vadd acc (vmuls damping_force (inv_mass box)) in
  let angular_damping := 1 / (1 + damping) in
  let center' := vadd (center box) (smulv h (vel box)) in
  (* linear momentum *)
  let P_dot :=
    if Rgt_dec (inv_mass box) 0.0001 then vdivs acc (inv_mass box)
    else vec3_zero in
  let P' := vadd (P box) (smulv h P_dot) in
  let vel' := vmuls P' (inv_mass box) in
  let Rm := toMat3 (orientation box) in
  let IInv' := mmul (mmul Rm (IBodyInv box)) (transpose Rm) in
  (* angular momentum *)
  let L_dot := torque in
  let L' := vadd (L box) (vmuls (vmuls L_dot h) angular_damping) in
  let angular_vel' := mmulv IInv' L' in
  let orientation' :=
    qadd (orientation box)
         (qmuls (qmul (smulq 0.5 (quat_sv 0 angular_vel')) (orientation box))
                h) in
  mkBox (color box) center' (dims box) vel' P' (inv_mass box)
        (normalize orientation') (IBodyInv box) IInv' L' angular_vel'.

(** ** The simulator *)

(** The data members of [Simulator] that [Simulator.cpp] reads or writes,
    with the function-local statics and the log. [Solver] is the state of the
    impulse solver. [bodies_] maps the index of a box to the handle of its
    collision body. *)
Record Simulator (Solver : Type) := mkSimulator {
  base_h_ : R;
  damping_ : R;
  spheres_n_ : N;
  sphere_rad_ : R;
  spheres_ : list Sphere;
  boxes_ : list Box;
  g_forces_ : gmap string vec3;
  g_torques_ : gmap string vec3;
  last_time_ : R;
  impulse_solver_ : Solver;
  world_ : PhysicsWorld;
  bodies_ : gmap nat nat;
  statics : Statics;
  log : list Event }.

Arguments mkSimulator {Solver}.
Arguments base_h_ {Solver}.
Arguments damping_ {Solver}.
Arguments spheres_n_ {Solver}.
Arguments sphere_rad_ {Solver}.
Arguments spheres_ {Solver}.
Arguments boxes_ {Solver}.
Arguments g_forces_ {Solver}.
Arguments g_torques_ {Solver}.
Arguments last_time_ {Solver}.
Arguments impulse_solver_ {Solver}.
Arguments world_ {Solver}.
Arguments bodies_ {Solver}.
Arguments statics {Solver}.
Arguments log {Solver}.

(** The parts of the repository that [Simulator.cpp] calls and that are not
    under [src/]: the particle collision solver [col_solver_], the class
    [ImpulseSolver] (which is also the callback of the world's collision
    query and holds a pointer to the simulator's boxes), and the platform's
    [RAND_MAX]. They are parameters of the development. *)
Class Externals (Solver : Type) := mkExternals {
  (** [col_solver_->handle_collisions(spheres_)] *)
  sphere_handle_collisions : list Sphere -> list Sphere;
  (** [impulse_solver_.clear()] *)
  impulse_clear : Solver -> Solver;
  (** [world_->testCollision(impulse_solver_)]: the world reports the
      contacts of its bodies to the solver *)
  impulse_testCollision : PhysicsWorld -> Solver * list Box -> Solver * list Box;
  (** [impulse_solver_.has_contacts()] *)
  impulse_has_contacts : Solver -> bool;
  (** [impulse_solver_.had_collisions()] *)
  impulse_had_collisions : Solver -> bool;
  (** [impulse_solver_.solve()] *)
  impulse_solve : Solver * list Box -> Solver * list Box;
  RAND_MAX : Z }.

(** Assignments to single members. *)
Definition set_spheres {Solver} (v : list Sphere) (s : Simulator Solver) : Simulator Solver :=
  mkSimulator (base_h_ s) (damping_ s) (spheres_n_ s) (sphere_rad_ s) v
    (boxes_ s) (g_forces_ s) (g_torques_ s) (last_time_ s) (impulse_solver_ s)
    (world_ s) (bodies_ s) (statics s) (log s).

Definition set_boxes {Solver} (v : list Box) (s : Simulator Solver) : Simulator Solver :=
  mkSimulator (base_h_ s) (damping_ s) (spheres_n_ s) (sphere_rad_ s)
    (spheres_ s) v (g_forces_ s) (g_torques_ s) (last_time_ s)
    (impulse_solver_ s) (world_ s) (bodies_ s) (statics s) (log s).

Definition set_g_forces {Solver} (v : gmap string vec3) (s : Simulator Solver)
  : Simulator Solver :=
  mkSimulator (base_h_ s) (damping_ s) (spheres_n_ s) (sphere_rad_ s)
    (spheres_ s) (boxes_ s) v (g_torques_ s) (last_time_ s)
    (impulse_solver_ s) (world_ s) (bodies_ s) (statics s) (log s).

Definition set_g_torques {Solver} (v : gmap string vec3) (s : Simulator Solver)
  : Simulator Solver :=
  mkSimulator (base_h_ s) (damping_ s) (spheres_n_ s) (sphere_rad_ s)
    (spheres_ s) (boxes_ s) (g_forces_ s) v (last_time_ s)
    (impulse_solver_ s) (world_ s) (bodies_ s) (statics s) (log s).

Definition set_last_time {Solver} (v : R) (s : Simulator Solver) : Simulator Solver :=
  mkSimulator (base_h_ s) (damping_ s) (spheres_n_ s) (sphere_rad_ s)
    (spheres_ s) (boxes_ s) (g_forces_ s) (g_torques_ s) v
    (impulse_solver_ s) (world_ s) (bodies_ s) (statics s) (log s).

Definition set_impulse_solver {Solver} (v : Solver) (s : Simulator Solver) : Simulator Solver :=
  mkSimulator (base_h_ s) (damping_ s) (spheres_n_ s) (sphere_rad_ s)
    (spheres_ s) (boxes_ s) (g_forces_ s) (g_torques_ s) (last_time_ s) v
    (world_ s) (bodies_ s) (statics s) (log s).

Definition set_world {Solver} (v : PhysicsWorld) (s : Simulator Solver) : Simulator Solver :=
  mkSimulator (base_h_ s) (damping_ s) (spheres_n_ s) (sphere_rad_ s)
    (spheres_ s) (boxes_ s) (g_forces_ s) (g_torques_ s) (last_time_ s)
    (impulse_solver_ s) v (bodies_ s) (statics s) (log s).

Definition set_bodies {Solver} (v : gmap nat nat) (s : Simulator Solver) : Simulator Solver :=
  mkSimulator (base_h_ s) (damping_ s) (spheres_n_ s) (sphere_rad_ s)
    (spheres_ s) (boxes_ s) (g_forces_ s) (g_torques_ s) (last_time_ s)
    (impulse_solver_ s) (world_ s) v (statics s) (log s).

Definition set_statics {Solver} (v : Statics) (s : Simulator Solver) : Simulator Solver :=
  mkSimulator (base_h_ s) (damping_ s) (spheres_n_ s) (sphere_rad_ s)
    (spheres_ s) (boxes_ s) (g_forces_ s) (g_torques_ s) (last_time_ s)
    (impulse_solver_ s) (world_ s) (bodies_ s) v (log s).

(** Append events to the log. *)
Definition emit {Solver} (evs : list Event) (s : Simulator Solver) : Simulator Solver :=
  mkSimulator (base_h_ s) (damping_ s) (spheres_n_ s) (sphere_rad_ s)
    (spheres_ s) (boxes_ s) (g_forces_ s) (g_torques_ s) (last_time_ s)
    (impulse_solver_ s) (world_ s) (bodies_ s) (statics s) (log s ++ evs).

(** GLFW key and action codes. *)
Definition GLFW_KEY_E : Z := 69.
Definition GLFW_KEY_P : Z := 80.
Definition GLFW_KEY_R : Z := 82.
Definition GLFW_KEY_T : Z := 84.
Definition GLFW_RELEASE : Z := 0.
Definition GLFW_PRESS : Z := 1.
Definition GLFW_REPEAT : Z := 2.

(** A key event delivered to [key_callback], with the values that [rand()]
    returns while it is handled. *)
Record KeyEvent := mkKeyEvent {
  key : Z;
  scancode : Z;
  action : Z;
  mods : Z;
  rand1 : Z;
  rand2 : Z }.

(** What one iteration of the frame loop receives from outside: the key
    events dispatched while the engine draws and the reading of
    [glfwGetTime()]. *)
Record FrameInput := mkFrameInput {
  frame_keys : list KeyEvent;
  frame_time : R }.

(** [box->color = glm::vec3(1., .2, .11)] *)
Definition reset_color (box : Box) : Box :=
  mkBox (Vec3 1 0.2 0.11) (center box) (dims box) (vel box) (P box)
        (inv_mass box) (orientation box) (IBodyInv box) (IInv box) (L box)
        (angular_vel box).

(** [box->P.z += d] *)
Definition add_P_z (d : R) (box : Box) : Box :=
  mkBox (color box) (center box) (dims box) (vel box)
        (Vec3 (vx (P box)) (vy (P box)) (vz (P box) + d))
        (inv_mass box) (orientation box) (IBodyInv box) (IInv box) (L box)
        (angular_vel box).

(** The transform handed to the collision world for a box. *)
Definition box_transform (box : Box) : Transform :=
  mkTransform (Vec3 (vx (center box)) (vy (center box)) (vz (center box)))
              (Quat (qw (orientation box)) (qx (orientation box))
                    (qy (orientation box)) (qz (orientation box))).

Section SimulatorMethods.
Context {Solver : Type} {ext : Externals Solver}.

(** [Simulator::Simulator(spheres_n)]. [last_time_] has no initialiser; its
    first value is [last_time0]. [solver0] is the fresh [ImpulseSolver]. *)
Definition Simulator_ctor (spheres_n : N) (solver0 : Solver) (last_time0 : R)
  : Simulator Solver :=
  mkSimulator 0.03 0.09 spheres_n 0.1 [] [] ∅ ∅ last_time0 solver0
              createPhysicsWorld ∅ (mkStatics true None 0%N) [].

(** *** Registries *)

Definition add_global_force (name : string) (f : vec3) (s : Simulator Solver)
  : Simulator Solver :=
  (* override existing force if there is one *)
  set_g_forces (<[name := f]> (g_forces_ s)) s.

Definition add_global_torque (name : string) (f : vec3) (s : Simulator Solver)
  : Simulator Solver :=
  (* override existing force if there is one *)
  set_g_torques (<[name := f]> (g_torques_ s)) s.

Definition remove_global_force (name : string) (s : Simulator Solver)
  : Simulator Solver :=
  match g_forces_ s !! name with
  | None => emit [EvCerr [OutStr "No force named "; OutStr name;
                          OutStr newline]] s
  | Some _ => set_g_forces (delete name (g_forces_ s)) s
  end.

Definition remove_global_torque (name : string) (s : Simulator Solver)
  : Simulator Solver :=
  match g_torques_ s !! name with
  | None => emit [EvCerr [OutStr "No torque named "; OutStr name;
                          OutStr newline]] s
  | Some _ => set_g_torques (delete name (g_torques_ s)) s
  end.


(** *** Collision handling *)

(** The [do ... while] loop of [handle_collisions]. [fuel] bounds the
    number of iterations of the model; [None] is fuel exhaustion. *)
Fixpoint solver_loop (fuel : nat) (solver_iteration_counter : Z)
    (s : Simulator Solver) : option (Z * Simulator Solver) :=
  match fuel with
  | O => None
  | S fuel' =>
      if (solver_iteration_counter =? 30)%Z then
        Some (solver_iteration_counter, s)
      else
        let s := emit [EvClear]
                   (set_impulse_solver (impulse_clear (impulse_solver_ s))
                                       s) in
        let '(sv, bs) :=
          impulse_testCollision (world_ s) (impulse_solver_ s, boxes_ s) in
        let s := emit [EvTestCollision (impulse_has_contacts sv)]
                   (set_boxes bs (set_impulse_solver sv s)) in
        let '(solver_iteration_counter, s) :=
          if impulse_has_contacts (impulse_solver_ s) then
            let '(sv, bs) := impulse_solve (impulse_solver_ s, boxes_ s) in
            ((solver_iteration_counter + 1)%Z,
             emit [EvSolve] (set_boxes bs (set_impulse_solver sv s)))
          else (solver_iteration_counter, s) in
        if impulse_had_collisions (impulse_solver_ s) then
          solver_loop fuel' solver_iteration_counter s
        else Some (solver_iteration_counter, s)
  end.

Definition handle_collisions (fuel : nat) (s : Simulator Solver)
  : option (Simulator Solver) :=
  (* Sphere collisions *)
  let s := emit [EvSphereCollisions]
             (set_spheres (sphere_handle_collisions (spheres_ s)) s) in
  (* Box collisions *)
  let s := set_boxes (reset_color <$> boxes_ s) s in
  match solver_loop fuel 0%Z s with
  | None => None
  | Some (solver_iteration_counter, s) =>
      Some (if (0 <? solver_iteration_counter)%Z then
              emit [EvCout [OutStr "Solved after ";
                            OutInt solver_iteration_counter;
                            OutStr (" iterations" +:+ newline)]] s
            else s)
  end.

(** *** Integration *)

Definition integrate_spheres (h : R) (s : Simulator Solver) : Simulator Solver :=
  let '(spheres, st, out) :=
    integrate_spheres_from h (damping_ s) (g_forces_ s) 0 (spheres_ s)
                           (statics s) in
  emit out (set_statics st (set_spheres spheres (emit [EvIntegrateSpheres] s))).

(** The second loop of [integrate_boxes], for one entry of [bodies_]. A
    body whose user data names no box is left as it is. *)
Definition push_transform (boxes : list Box) (w : PhysicsWorld)
    (entry : nat * nat) : PhysicsWorld :=
  match getUserData entry.2 w with
  | Some i =>
      match boxes !! i with
      | Some box => setTransform entry.2 (box_transform box) w
      | None => w
      end
  | None => w
  end.

Definition integrate_boxes (h : R) (s : Simulator Solver) : Simulator Solver :=
  let boxes :=
    integrate_box h (damping_ s) (g_forces_ s) (g_torques_ s) <$> boxes_ s in
  let s := set_boxes boxes (emit [EvIntegrateBoxes] s) in
  (* update reactphysics3d world *)
  let entries := map_to_list (bodies_ s) in
  emit ((fun entry => EvSetTransform entry.2) <$> entries)
       (set_world (foldl (push_transform boxes) (world_ s) entries) s).

Definition integrate (curr_time : R) (s : Simulator Solver) : Simulator Solver :=
  let last_time :=
    if integrate_init (statics s) then curr_time else last_time_ s in
  let delta := curr_time - last_time in
  let s := set_last_time curr_time
             (set_statics (mkStatics false (lowSphere (statics s))
                                     (cnt (statics s))) s) in
  let h := base_h_ s * 133.33 * delta in
  integrate_boxes h (integrate_spheres h s).

(** *** Input *)

(** [get_rand(low, high)], for the value [r] that [rand()] returns. *)
Definition get_rand (r : Z) (low high : R) : R :=
  low + IZR r / (IZR RAND_MAX / (high - low)).

(** [Simulator::key_callback]. [boxes_[0]] of an empty [boxes_] is outside
    the vector; the model leaves the state as it is there. *)
Definition key_callback (e : KeyEvent) (s : Simulator Solver)
  : Simulator Solver :=
  if (key e =? GLFW_KEY_P)%Z then
    if (action e =? GLFW_PRESS)%Z then
      let s := emit [EvCout [OutStr ("P press!!!" +:+ newline)]] s in
      let force :=
        Vec3 (get_rand (rand1 e) (-1) 1) 0.5 (get_rand (rand2 e) (-1) 1) in
      let s := emit [EvCout [OutStr "adding:("; OutFloat (vx force);
                             OutStr ","; OutFloat (vy force); OutStr ",";
                             OutFloat (vz force); OutStr newline]] s in
      add_global_force "P-force" force s
    else if (action e =? GLFW_RELEASE)%Z then
      let s := emit [EvCout [OutStr ("P release!!!" +:+ newline)]] s in
      remove_global_force "P-force" s
    else if (action e =? GLFW_REPEAT)%Z then
      (* ignored *)
      s
    else
      emit [EvCout [OutStr "P unknown action:"; OutInt (action e);
                    OutStr newline]] s
  else if (key e =? GLFW_KEY_T)%Z then
    if (action e =? GLFW_PRESS)%Z then
      let s := emit [EvCout [OutStr ("T press!!!" +:+ newline)]] s in
      let torque :=
        Vec3 (get_rand (rand1 e) (-0.1) 0.1) 0.5
             (get_rand (rand2 e) (-0.1) 0.1) in
      let s := emit [EvCout [OutStr "adding:("; OutFloat (vx torque);
                             OutStr ","; OutFloat (vy torque); OutStr ",";
                             OutFloat (vz torque); OutStr newline]] s in
      add_global_torque "torque" torque s
    else if (action e =? GLFW_RELEASE)%Z then
      let s := emit [EvCout [OutStr ("T release!!!" +:+ newline)]] s in
      remove_global_torque "torque" s
    else if (action e =? GLFW_REPEAT)%Z then
      (* ignored *)
      s
    else
      emit [EvCout [OutStr "P unknown action:"; OutInt (action e);
                    OutStr newline]] s
  else if (key e =? GLFW_KEY_R)%Z then
    if (action e =? GLFW_PRESS)%Z then
      let s := emit [EvCout [OutStr ("R press!!!" +:+ newline)]] s in
      set_boxes (alter (add_P_z 0.3) 0%nat (boxes_ s)) s
    else s
  else if (key e =? GLFW_KEY_E)%Z then
    if (action e =? GLFW_PRESS)%Z then
      let s := emit [EvCout [OutStr ("R press!!!" +:+ newline)]] s in
      set_boxes (alter (add_P_z (- 0.3)) 0%nat (boxes_ s)) s
    else s
  else
    (* ignore *)
    s.

(** *** Initialisation and teardown *)

(** The body of the registration loop of [init] for index [i]. [emplace]
    keeps an entry that is already there. The collider shape added to the
    body is kept by the world and is not read by the simulator. *)
Definition register_body (s : Simulator Solver) (i : nat)
  : Simulator Solver :=
  match boxes_ s !! i with
  | Some box =>
      let '(body, w) := createCollisionBody (box_transform box) (world_ s) in
      let w := setUserData body i w in
      let bodies :=
        match bodies_ s !! i with
        | None => <[i := body]> (bodies_ s)
        | Some _ => bodies_ s
        end in
      emit [EvCreateBody body] (set_bodies bodies (set_world w s))
  | None => s
  end.

(** [Simulator::init]. The engine and the constructor of [Box] are not under
    [src/]: [spheres] and [boxes] are the particles and the mobile boxes as
    the engine hands them over (with their random start values), and
    [floor] ... [left] the six boundary boxes as [new Box(_, dims, true)]
    builds them. *)
Definition init (spheres : list Sphere) (boxes : list Box)
    (floor ceiling back front right left : Box) (s : Simulator Solver)
  : Simulator Solver :=
  let s := add_global_force "gravity" GRAVITY s in
  (* add spheres *)
  let s := set_spheres (spheres_ s ++ spheres) s in
  (* add boxes *)
  let s := set_boxes (boxes_ s ++ boxes) s in
  (* add boundaries *)
  let s := set_boxes
             (boxes_ s ++ [floor; ceiling; back; front; right; left]) s in
  foldl register_body s (seq 0 (length (boxes_ s))).

(** [Simulator::~Simulator] *)
Definition Simulator_dtor (s : Simulator Solver) : Simulator Solver :=
  let s :=
    foldl (fun s body_pair =>
             emit [EvDestroyBody body_pair.2]
                  (set_world (destroyCollisionBody body_pair.2 (world_ s)) s))
          s (map_to_list (bodies_ s)) in
  emit [EvDestroyWorld] s.

(** *** The frame loop *)

(** One iteration of the loop of [run]. *)
Definition frame (fuel : nat) (inp : FrameInput) (s : Simulator Solver)
  : option (Simulator Solver) :=
  let s := foldl (fun s e => key_callback e s) (emit [EvDraw] s)
                 (frame_keys inp) in
  match handle_collisions fuel s with
  | None => None
  | Some s => Some (emit [EvPrintFps] (integrate (frame_time inp) s))
  end.

(** [Simulator::run]: [engine_.loop_done()] holds when [frames] is used up. *)
Fixpoint run (fuel : nat) (frames : list FrameInput) (s : Simulator Solver)
  : option (Simulator Solver) :=
  match frames with
  | [] => Some s
  | inp :: rest =>
      match frame fuel inp s with
      | None => None
      | Some s => run fuel rest s
      end
  end.

End SimulatorMethods.

(** ** The entry point *)

(** The number of particles that [main] hands to the constructor. [argv]
    holds the program name and the arguments ([argc] is its length); [atoi]
    is the C library's. *)
Definition main_spheres_n (atoi : string -> Z) (argv : list string) : N :=
  let spheres_n := 3000%N in
  if (length argv =? 2)%nat then
    match argv !! 1%nat with
    | Some arg =>
        let n := atoi arg in
        if (0 <? n)%Z then Z.to_N n else spheres_n
    | None => spheres_n
    end
  else spheres_n.

(** ** The earlier variant of the box integrator *)

(** The earlier [Simulator.cpp] kept under [src/unnamed]: boxes have a mass,
    no momenta, and their center is not integrated. *)
Module Earlier.

Record Box := mkBox {
  center : vec3;
  vel : vec3;
  mass : R;
  angular_vel : vec3;
  orientation : quat;
  IBodyInv : mat3 }.

(** One box of the loop of [integrate_boxes]. *)
Definition integrate_box (h dampening : R)
    (forces torques : gmap string vec3) (box : Box) : Box :=
  let acc := accumulate_div forces (mass box) in
  let torque := accumulate_div torques (mass box) in
  (* internal forces calculations *)
  let dampening_force := smulv (- dampening) (vel box) in
  let acc := vadd acc (vdivs dampening_force (mass box)) in
  let dampening_torque := smulv (- dampening) (angular_vel box) in
  let torque := vadd torque (vdivs dampening_torque (mass box)) in
  let vel' := vadd (vel box) (smulv h acc) in
  let Rm := toMat3 (orientation box) in
  let IInv := mmul (mmul Rm (IBodyInv box)) (transpose Rm) in
  (* angular momentum *)
  let L_dot := torque in
  let angular_vel' := vadd (angular_vel box) (vmuls (mmulv IInv L_dot) h) in
  let orientation' :=
    qadd (orientation box)
         (qmuls (qmul (smulq 0.5 (quat_sv 0 angular_vel')) (orientation box))
                h) in
  mkBox (center box) vel' (mass box) angular_vel' (normalize orientation')
        (IBodyInv box).

Definition integrate_boxes (h dampening : R)
    (forces torques : gmap string vec3) (boxes : list Box) : list Box :=
  integrate_box h dampening forces torques <$> boxes.

End Earlier.

(** ** Two concrete collaborators *)

(** A scene in which the collision query never reports a contact. *)
Definition quiet_externals : Externals unit :=
  mkExternals unit
    (fun spheres => spheres)
    (fun sv => sv)
    (fun _ sb => sb)
    (fun _ => false)
    (fun _ => false)
    (fun sb => sb)
    2147483647%Z.

(** A scene with a resting contact that no velocity correction removes: every
    query reports it (the solver state is the number of passes applied). *)
Definition stuck_externals : Externals nat :=
  mkExternals nat
    (fun spheres => spheres)
    (fun sv => sv)
    (fun _ sb => sb)
    (fun _ => true)
    (fun _ => true)
    (fun sb => (S sb.1, sb.2))
    2147483647%Z.

(** A scene that needs [n] impulse passes. The solver state is the number
    of passes applied so far and the flag that the last query set: a query
    reports contacts until [n] passes have been applied. *)
Definition settling_externals (n : nat) : Externals (nat * bool) :=
  mkExternals (nat * bool)
    (fun spheres => spheres)
    (fun sv => (sv.1, false))
    (fun _ sb => ((sb.1.1, bool_decide (sb.1.1 < n)%nat), sb.2))
    (fun sv => sv.2)
    (fun sv => sv.2)
    (fun sb => ((S sb.1.1, sb.1.2), sb.2))
    2147483647%Z.

(** A box at the origin with the identity orientation. *)
Definition box_at_origin (inv_m : R) (v : vec3) : Box :=
  mkBox (Vec3 1 1 1) vec3_zero (Vec3 1 1 1) v vec3_zero inv_m quat_identity
        mat3_zero mat3_zero vec3_zero vec3_zero.

(** A simulator holding [boxes] and the registry [forces], past its first
    [integrate] call (at time 0). *)
Definition sample_simulator {Solver} (sv : Solver)
    (forces : gmap string vec3) (boxes : list Box) : Simulator Solver :=
  mkSimulator 0.03 0.09 0%N 0.1 [] boxes forces ∅ 0 sv
              createPhysicsWorld ∅ (mkStatics false None 0%N) [].

(** ** Predicates of the statements *)

(** One step of a loop that adds [g] of every registry entry. *)
Definition acc_step (g : vec3 -> vec3) (acc : vec3) (f : string * vec3)
  : vec3 :=
  vadd acc (g f.2).

(** The orientation has unit norm. *)
Definition unit_orientation (box : Box) : Prop :=
  qlength (orientation box) = 1.

(** Modelled from the spec: the constructor of [Box] is not under [src/].
    The specification has a box of inverse mass 0 a static body whose
    orientation is a unit quaternion: such a box is built with nothing that
    could turn it (no angular momentum, or no inverse inertia). Its
    velocity is left open. *)
Definition immovable (box : Box) : Prop :=
  inv_mass box = 0 /\
  (L box = vec3_zero \/ IBodyInv box = mat3_zero) /\
  unit_orientation box.

(** An immovable box at rest: inverse mass 0, no linear velocity, nothing
    that could turn it (no angular momentum, or no inverse inertia), and a
    unit orientation. *)
Definition box_at_rest (box : Box) : Prop :=
  inv_mass box = 0 /\
  vel box = vec3_zero /\
  (L box = vec3_zero \/ IBodyInv box = mat3_zero) /\
  unit_orientation box.

(** [box'] is a later state of the immovable box [box]: if [box] was at
    rest, [box'] is at rest at the same place with the same orientation. *)
Definition rest_kept (box box' : Box) : Prop :=
  box_at_rest box ->
  box_at_rest box' /\
  center box' = center box /\
  orientation box' = orientation box.

(** [box'] is the immovable box [box] left in place: still immovable, at
    the same place with the same orientation, and without a velocity if
    [box] had none. *)
Definition place_kept (box box' : Box) : Prop :=
  immovable box ->
  immovable box' /\
  center box' = center box /\
  orientation box' = orientation box /\
  (vel box = vec3_zero -> vel box' = vec3_zero).

(** *** Events *)

Definition is_output (e : Event) : bool :=
  match e with EvCout _ | EvCerr _ => true | _ => false end.

(** Collision detection: the particle grid pass and a box collision query. *)
Definition is_detection (e : Event) : bool :=
  match e with EvSphereCollisions | EvTestCollision _ => true | _ => false end.

(** Contact resolution: an impulse pass. *)
Definition is_resolution (e : Event) : bool :=
  match e with EvSolve => true | _ => false end.

Definition is_integration (e : Event) : bool :=
  match e with
  | EvIntegrateSpheres | EvIntegrateBoxes | EvSetTransform _ => true
  | _ => false
  end.

Definition is_set_transform (e : Event) : bool :=
  match e with EvSetTransform _ => true | _ => false end.

(** Creation and destruction of collision bodies and of the world. *)
Definition is_lifecycle (e : Event) : bool :=
  match e with
  | EvCreateBody _ | EvDestroyBody _ | EvDestroyWorld => true
  | _ => false
  end.

Definition is_destroy_body (e : Event) : bool :=
  match e with EvDestroyBody _ => true | _ => false end.

Definition is_destroy_world (e : Event) : bool :=
  match e with EvDestroyWorld => true | _ => false end.

(** One iteration of the loop that applies an impulse pass. *)
Definition pass_round : list Event :=
  [EvClear; EvTestCollision true; EvSolve].

(** One iteration of the loop whose query reports no contact. *)
Definition quiet_round : list Event := [EvClear; EvTestCollision false].

Fixpoint rounds (n : nat) : list Event :=
  match n with
  | O => []
  | S n => pass_round ++ rounds n
  end.

(** The line written after [n] passes, if [n > 0]. *)
Definition solved_message (n : nat) : list Event :=
  if (0 <? Z.of_nat n)%Z then
    [EvCout [OutStr "Solved after "; OutInt (Z.of_nat n);
             OutStr (" iterations" +:+ newline)]]
  else [].

(** The number of impulse passes in a log. *)
Fixpoint passes (tr : list Event) : nat :=
  match tr with
  | [] => O
  | e :: tr => ((if is_resolution e then 1 else 0) + passes tr)%nat
  end.

(** Every event of kind [p] comes before every event of kind [q]. *)
Definition strictly_before (p q : Event -> bool) (tr : list Event) : Prop :=
  forall (i j : nat) (e1 e2 : Event),
    tr !! i = Some e1 -> tr !! j = Some e2 ->
    p e1 = true -> q e2 = true -> (i < j)%nat.

(** In [tr] every impulse pass comes right after a query that reported
    contacts. *)
Definition pass_follows_query (tr : list Event) : Prop :=
  forall (j : nat), tr !! j = Some EvSolve ->
    exists i : nat, j = S i /\ tr !! i = Some (EvTestCollision true).

(** The handles of the bodies created in a log. *)
Definition created_bodies (tr : list Event) : list nat :=
  omap (fun e => match e with EvCreateBody b => Some b | _ => None end) tr.

(** Every body that is live in the world or was created in the log is one
    of the bodies the simulator keeps in [bodies_]. *)
Definition all_tracked {Solver} (s : Simulator Solver) : Prop :=
  forall body : nat,
    body ∈ dom (world_bodies (world_ s)) \/ body ∈ created_bodies (log s) ->
    exists i : nat, bodies_ s !! i = Some body.

(** The invariant of the registration loop of [init] before index [j]. *)
Definition registration_inv {Solver} (j : nat) (s : Simulator Solver)
  : Prop :=
  all_tracked s /\
  (forall i : nat, (j <= i)%nat -> bodies_ s !! i = None) /\
  Forall (fun e => is_destroy_world e = false) (log s).

(** The state of the registration loop of [init] before index [j], started
    from [s0] with a fresh world: the boxes before [j] have the bodies
    [0 .. j-1], each with the index and the transform of its box. *)
Definition registered_upto {Solver} (s0 : Simulator Solver) (j : nat)
    (s : Simulator Solver) : Prop :=
  boxes_ s = boxes_ s0 /\
  spheres_ s = spheres_ s0 /\
  g_forces_ s = g_forces_ s0 /\
  g_torques_ s = g_torques_ s0 /\
  world_next (world_ s) = j /\
  log s = log s0 ++ (EvCreateBody <$> seq 0 j) /\
  (forall i box, (i < j)%nat -> boxes_ s0 !! i = Some box ->
     bodies_ s !! i = Some i /\
     world_bodies (world_ s) !! i
     = Some (mkBody (box_transform box) (Some i))) /\
  (forall i, (j <= i)%nat ->
     bodies_ s !! i = None /\ world_bodies (world_ s) !! i = None).

(** *** Assumptions on the impulse solver *)

(** Modelled from the spec: [ImpulseSolver::has_contacts] and
    [ImpulseSolver::had_collisions] are not under [src/]. The specification
    has the loop exit when a query finds no contacts: after [clear] and a
    query, [had_collisions] does not hold unless [has_contacts] does. *)
Definition query_decides_loop {Solver} (ext : Externals Solver) : Prop :=
  forall (w : PhysicsWorld) (sv : Solver) (bs : list Box),
    impulse_has_contacts
      (impulse_testCollision w (impulse_clear sv, bs)).1 = false ->
    impulse_had_collisions
      (impulse_testCollision w (impulse_clear sv, bs)).1 = false.

(** Modelled from the spec: [ImpulseSolver::solve] and the contact callback
    of [ImpulseSolver] are not under [src/]. The specification has the pass
    correct velocities and the boxes of inverse mass 0 never move: the query
    and the pass leave an immovable box in place, and give it no velocity
    when it has none. *)
Definition keeps_immovable {Solver} (ext : Externals Solver) : Prop :=
  forall (sv : Solver) (bs : list Box),
    (forall w : PhysicsWorld,
        Forall2 place_kept bs (impulse_testCollision w (sv, bs)).2) /\
    Forall2 place_kept bs (impulse_solve (sv, bs)).2.

(** ** Vector algebra *)

Ltac vec_destruct :=
  repeat match goal with
         | v : vec3 |- _ => destruct v
         | q : quat |- _ => destruct q
         | m : mat3 |- _ => destruct m
         end.

Ltac vec_crush :=
  intros; vec_destruct;
  cbv [vadd vsub smulv vmuls vdivs qadd smulq qmuls qmul quat_sv mmul mmulv
       transpose toMat3 vec3_zero mat3_zero quat_identity
       vx vy vz qw qx qy qz m00 m01 m02 m10 m11 m12 m20 m21 m22];
  f_equal; try lra; try (unfold Rdiv; ring).

Lemma vadd_zero_l (a : vec3) : vadd vec3_zero a = a.
Proof. vec_crush. Qed.

Lemma vadd_zero_r (a : vec3) : vadd a vec3_zero = a.
Proof. vec_crush. Qed.

Lemma vadd_assoc (a b c : vec3) : vadd (vadd a b) c = vadd a (vadd b c).
Proof. vec_crush. Qed.

Lemma vadd_comm (a b : vec3) : vadd a b = vadd b a.
Proof. vec_crush. Qed.

Lemma smulv_zero (h : R) : smulv h vec3_zero = vec3_zero.
Proof. vec_crush. Qed.

Lemma vmuls_zero (v : vec3) : vmuls v 0 = vec3_zero.
Proof. vec_crush. Qed.

Lemma vdivs_vadd (a b : vec3) (s : R) :
  vdivs (vadd a b) s = vadd (vdivs a s) (vdivs b s).
Proof. vec_crush. Qed.

Lemma mmulv_zero (m : mat3) : mmulv m vec3_zero = vec3_zero.
Proof. vec_crush. Qed.

Lemma mmulv_mat_zero (a b : mat3) (v : vec3) :
  mmulv (mmul (mmul a mat3_zero) b) v = vec3_zero.
Proof. vec_crush. Qed.

(** *** Sums over the entries of a registry *)

Section Accumulate.
Variable g : vec3 -> vec3.

Lemma foldl_acc_shift (l : list (string * vec3)) (a : vec3) :
  foldl (acc_step g) a l = vadd a (foldl (acc_step g) vec3_zero l).
Proof.
  revert a. induction l as [|f l IH]; intros a; simpl.
  - now rewrite vadd_zero_r.
  - rewrite (IH (acc_step g a f)), (IH (acc_step g vec3_zero f)).
    unfold acc_step. now rewrite vadd_zero_l, vadd_assoc.
Qed.

Lemma foldl_acc_cons (f : string * vec3) (l : list (string * vec3)) :
  foldl (acc_step g) vec3_zero (f :: l)
  = vadd (g f.2) (foldl (acc_step g) vec3_zero l).
Proof.
  simpl. rewrite foldl_acc_shift. unfold acc_step.
  now rewrite vadd_zero_l.
Qed.

Lemma foldl_acc_perm (l1 l2 : list (string * vec3)) :
  l1 ≡ₚ l2 ->
  foldl (acc_step g) vec3_zero l1 = foldl (acc_step g) vec3_zero l2.
Proof.
  induction 1 as [|f l1 l2 _ IH|f1 f2 l|l1 l2 l3 _ IH1 _ IH2].
  - reflexivity.
  - now rewrite !foldl_acc_cons, IH.
  - rewrite !foldl_acc_cons, <- !vadd_assoc.
    now rewrite (vadd_comm (g f1.2)).
  - now rewrite IH1.
Qed.

End Accumulate.

Lemma net_fold (registry : gmap string vec3) :
  net registry
  = foldl (acc_step (fun v => v)) vec3_zero (map_to_list registry).
Proof. reflexivity. Qed.

Lemma net_empty : net ∅ = vec3_zero.
Proof. unfold net. now rewrite map_to_list_empty. Qed.

Lemma net_insert_fresh (registry : gmap string vec3) (name : string)
    (f : vec3) :
  registry !! name = None ->
  net (<[name := f]> registry) = vadd f (net registry).
Proof.
  intros Hnone. rewrite !net_fold.
  rewrite (foldl_acc_perm _ _ _ (map_to_list_insert registry name f Hnone)).
  now rewrite foldl_acc_cons.
Qed.

Lemma net_delete (registry : gmap string vec3) (name : string) (f : vec3) :
  registry !! name = Some f ->
  net registry = vadd f (net (delete name registry)).
Proof.
  intros Hsome. rewrite !net_fold.
  rewrite <- (foldl_acc_perm _ _ _ (map_to_list_delete registry name f Hsome)).
  now rewrite foldl_acc_cons.
Qed.

Lemma net_insert (registry : gmap string vec3) (name : string) (f : vec3) :
  net (<[name := f]> registry) = vadd f (net (delete name registry)).
Proof.
  rewrite <- (insert_delete_eq registry).
  apply net_insert_fresh, lookup_delete_eq.
Qed.

Lemma accumulate_div_net (registry : gmap string vec3) (mass : R) :
  accumulate_div registry mass = vdivs (net registry) mass.
Proof.
  unfold accumulate_div, net.
  induction (map_to_list registry) as [|f l IH] using rev_ind.
  - simpl. vec_crush.
  - rewrite !foldl_app. simpl. now rewrite IH, vdivs_vadd.
Qed.

Lemma accumulate_mul_zero (registry : gmap string vec3) :
  accumulate_mul registry 0 = vec3_zero.
Proof.
  unfold accumulate_mul.
  induction (map_to_list registry) as [|f l IH] using rev_ind.
  - reflexivity.
  - rewrite foldl_app. simpl. now rewrite IH, vmuls_zero, vadd_zero_l.
Qed.

(** ** The registries *)

Section RegistryProperties.
Context {Solver : Type}.
Implicit Types (s : Simulator Solver) (name : string).

Lemma set_g_forces_same s : set_g_forces (g_forces_ s) s = s.
Proof. now destruct s. Qed.

Lemma add_then_remove_state name (v : vec3) s :
  remove_global_force name (add_global_force name v s)
  = set_g_forces (delete name (g_forces_ s)) s.
Proof.
  unfold remove_global_force, add_global_force. cbn.
  rewrite lookup_insert_eq. unfold set_g_forces; cbn.
  now rewrite delete_insert_eq.
Qed.

(** Whatever was registered under [name] before is gone after the pair of
    calls: the net force is the earlier sum less that vector. *)
Lemma add_then_remove_net name (v : vec3) s :
  net (g_forces_ s)
  = match g_forces_ s !! name with
    | None =>
        net (g_forces_ (remove_global_force name (add_global_force name v s)))
    | Some w =>
        vadd w (net (g_forces_ (remove_global_force name
                                  (add_global_force name v s))))
    end.
Proof.
  rewrite add_then_remove_state. cbn.
  destruct (g_forces_ s !! name) as [w|] eqn:Hname.
  - now apply net_delete.
  - now rewrite delete_id.
Qed.

(** C5: adding a force under a name that is already registered replaces the
    stored vector: after [add_global_force name v1] and then
    [add_global_force name v2] the registry holds exactly [v2] under [name]
    (the state is the one a single [add_global_force name v2] gives), every
    other entry is as before, and the net force counts [v2] once, not
    [v1 + v2]. *)
Theorem add_global_force_replaces name (v1 v2 : vec3) s :
  let s' := add_global_force name v2 (add_global_force name v1 s) in
  s' = add_global_force name v2 s /\
  g_forces_ s' !! name = Some v2 /\
  delete name (g_forces_ s') = delete name (g_forces_ s) /\
  net (g_forces_ s') = vadd v2 (net (delete name (g_forces_ s))).
Proof.
  cbn. unfold add_global_force, set_g_forces; cbn.
  rewrite insert_insert_eq. repeat split.
  - apply lookup_insert_eq.
  - apply delete_insert_eq.
  - apply net_insert.
Qed.

(** C6 (amended): when no force is registered under [name],
    [add_global_force name v] followed by [remove_global_force name] gives
    back the state it started from: the registry, and so the net accumulated
    force, is the one before the force was added, and nothing is written. *)
Theorem add_then_remove_global_force name (v : vec3) s :
  g_forces_ s !! name = None ->
  let s' := remove_global_force name (add_global_force name v s) in
  s' = s /\ net (g_forces_ s') = net (g_forces_ s).
Proof.
  intros Hname. cbn. rewrite add_then_remove_state, delete_id by done.
  now rewrite set_g_forces_same.
Qed.

(** C7: removing a name that is not registered writes one diagnostic line
    and changes nothing else, in particular not the registry; removing a
    registered name erases that entry, keeps every other entry and writes
    nothing. Both calls always return a state. The same holds for torques. *)
Theorem remove_global_force_torque name s :
  (g_forces_ s !! name = None ->
   remove_global_force name s
   = emit [EvCerr [OutStr "No force named "; OutStr name; OutStr newline]] s
   /\ g_forces_ (remove_global_force name s) = g_forces_ s) /\
  (is_Some (g_forces_ s !! name) ->
   remove_global_force name s = set_g_forces (delete name (g_forces_ s)) s
   /\ g_forces_ (remove_global_force name s) !! name = None
   /\ (forall other, other <> name ->
         g_forces_ (remove_global_force name s) !! other
         = g_forces_ s !! other)
   /\ log (remove_global_force name s) = log s) /\
  (g_torques_ s !! name = None ->
   remove_global_torque name s
   = emit [EvCerr [OutStr "No torque named "; OutStr name; OutStr newline]] s
   /\ g_torques_ (remove_global_torque name s) = g_torques_ s) /\
  (is_Some (g_torques_ s !! name) ->
   remove_global_torque name s = set_g_torques (delete name (g_torques_ s)) s
   /\ g_torques_ (remove_global_torque name s) !! name = None
   /\ (forall other, other <> name ->
         g_torques_ (remove_global_torque name s) !! other
         = g_torques_ s !! other)
   /\ log (remove_global_torque name s) = log s).
Proof.
  unfold remove_global_force, remove_global_torque.
  split_and!.
  - intros ->. now split.
  - intros [w ->]. cbn. split_and!; try reflexivity.
    + apply lookup_delete_eq.
    + intros other Hne. now apply lookup_delete_ne.
  - intros ->. now split.
  - intros [w ->]. cbn. split_and!; try reflexivity.
    + apply lookup_delete_eq.
    + intros other Hne. now apply lookup_delete_ne.
Qed.

End RegistryProperties.

(** ** The integrators *)

Lemma qlength_identity : qlength (Quat 1 0 0 0) = 1.
Proof.
  unfold qlength, qdot; cbn.
  replace (1 * 1 + 0 * 0 + (0 * 0 + 0 * 0)) with 1 by lra.
  apply sqrt_1.
Qed.

Lemma qdot_scaled (q : quat) (k : R) :
  qdot (Quat (qw q * k) (qx q * k) (qy q * k) (qz q * k))
       (Quat (qw q * k) (qx q * k) (qy q * k) (qz q * k))
  = qdot q q * (k * k).
Proof. unfold qdot; cbn. ring. Qed.

(** [glm::normalize] returns a quaternion of length 1, whatever it is given. *)
Lemma normalize_unit (q : quat) : qlength (normalize q) = 1.
Proof.
  unfold normalize.
  destruct (Rle_dec (qlength q) 0) as [Hle|Hgt].
  - apply qlength_identity.
  - unfold qlength in *. rewrite qdot_scaled.
    set (d := qdot q q) in *.
    assert (Hpos : 0 < sqrt d) by lra.
    assert (Hd : 0 <= d).
    { destruct (Rle_dec 0 d) as [|Hneg]; [assumption|].
      rewrite sqrt_neg_0 in Hpos by lra. lra. }
    replace (d * (1 / sqrt d * (1 / sqrt d))) with 1.
    + apply sqrt_1.
    + rewrite <- (sqrt_sqrt d Hd) at 1. field. lra.
Qed.

(** A quaternion of unit norm is a fixed point of [glm::normalize]. *)
Lemma normalize_of_unit (q : quat) : qdot q q = 1 -> normalize q = q.
Proof.
  intros Hq. unfold normalize, qlength. rewrite Hq, sqrt_1.
  destruct (Rle_dec 1 0) as [Hle|_]; [lra|].
  destruct q; cbn. f_equal; field.
Qed.

Lemma qdot_of_unit_length (q : quat) : qlength q = 1 -> qdot q q = 1.
Proof.
  unfold qlength. intros Hlen.
  assert (Hd : 0 <= qdot q q).
  { unfold qdot. nra. }
  rewrite <- (sqrt_sqrt _ Hd), Hlen. lra.
Qed.

Lemma orientation_step_at_rest (q : quat) (h : R) :
  qadd q (qmuls (qmul (smulq 0.5 (quat_sv 0 vec3_zero)) q) h) = q.
Proof. vec_crush. Qed.

(** The physical part of one particle update does not depend on the
    diagnostic statics. *)
Lemma integrate_sphere_physics (h damping : R) (forces : gmap string vec3)
    (idx : nat) (sphere : Sphere) (st : Statics) :
  (integrate_sphere h damping forces idx sphere st).1.1
  = particle_update_spec h damping forces sphere.
Proof.
  unfold integrate_sphere, particle_update_spec.
  rewrite accumulate_div_net.
  set (a := vadd (vdivs (net forces) _) _).
  set (a' := vsub (vdivs (net forces) _) _).
  assert (Ha : a = a').
  { subst a a'. generalize (net forces). destruct sphere as [p v m c]; cbn.
    vec_crush. }
  rewrite Ha.
  destruct (bool_decide _); cbn; reflexivity.
Qed.

Lemma integrate_spheres_from_physics (h damping : R)
    (forces : gmap string vec3) (spheres : list Sphere) :
  forall (idx : nat) (st : Statics),
    (integrate_spheres_from h damping forces idx spheres st).1.1
    = particle_update_spec h damping forces <$> spheres.
Proof.
  induction spheres as [|sphere rest IH]; intros idx st; [reflexivity|].
  cbn [integrate_spheres_from].
  pose proof (integrate_sphere_physics h damping forces idx sphere st) as H1.
  destruct (integrate_sphere h damping forces idx sphere st)
    as [[sphere' st1] out1].
  specialize (IH (S idx) st1).
  destruct (integrate_spheres_from h damping forces (S idx) rest st1)
    as [[rest' st2] out2].
  cbn in *. now rewrite H1, IH.
Qed.

Section IntegratorProperties.
Context {Solver : Type}.
Implicit Types (s : Simulator Solver) (h : R).

Lemma spheres_integrate_spheres h s :
  spheres_ (integrate_spheres h s)
  = particle_update_spec h (damping_ s) (g_forces_ s) <$> spheres_ s.
Proof.
  unfold integrate_spheres.
  pose proof (integrate_spheres_from_physics h (damping_ s) (g_forces_ s)
                (spheres_ s) 0 (statics s)) as H1.
  destruct (integrate_spheres_from _ _ _ _ _ _) as [[spheres st] out].
  exact H1.
Qed.

Lemma boxes_integrate_boxes h s :
  boxes_ (integrate_boxes h s)
  = integrate_box h (damping_ s) (g_forces_ s) (g_torques_ s) <$> boxes_ s.
Proof. reflexivity. Qed.

(** C4: the particle update of [integrate_spheres] is the semi-implicit
    Euler step of the specification: for a particle of positive mass the
    acceleration is the sum of the registered forces over the mass minus
    damping times velocity over the mass, the velocity is advanced by
    [h * acceleration], the position by [h] times the new velocity, and the
    contact partners are cleared. *)
Theorem integrate_spheres_semi_implicit h s (i : nat) (sphere : Sphere) :
  spheres_ s !! i = Some sphere ->
  0 < sphere_mass sphere ->
  exists sphere',
    spheres_ (integrate_spheres h s) !! i = Some sphere' /\
    sphere' = particle_update_spec h (damping_ s) (g_forces_ s) sphere /\
    sphere_vel sphere'
    = vadd (sphere_vel sphere)
        (smulv h (vsub (vdivs (net (g_forces_ s)) (sphere_mass sphere))
                       (vdivs (smulv (damping_ s) (sphere_vel sphere))
                              (sphere_mass sphere)))) /\
    sphere_pos sphere'
    = vadd (sphere_pos sphere) (smulv h (sphere_vel sphere')) /\
    sphere_mass sphere' = sphere_mass sphere /\
    colliders_ sphere' = [].
Proof.
  intros Hi _. eexists. split.
  - rewrite spheres_integrate_spheres, list_lookup_fmap, Hi. reflexivity.
  - repeat split; reflexivity.
Qed.

Lemma integrate_boxes_unit h s :
  Forall unit_orientation (boxes_ (integrate_boxes h s)).
Proof.
  rewrite boxes_integrate_boxes. apply Forall_fmap, Forall_true.
  intros box. apply normalize_unit.
Qed.

Lemma integrate_unit (curr_time : R) s :
  Forall unit_orientation (boxes_ (integrate curr_time s)).
Proof. unfold integrate. apply integrate_boxes_unit. Qed.

(** C10: a box whose inverse mass is at most 0.0001 keeps its linear
    momentum [P] through [integrate_boxes], whatever the registries hold:
    the test [inv_mass > .0001] fails, the momentum derivative stays zero. *)
Theorem light_inverse_mass_keeps_momentum h s (i : nat) (box : Box) :
  boxes_ s !! i = Some box ->
  inv_mass box <= 0.0001 ->
  exists box',
    boxes_ (integrate_boxes h s) !! i = Some box' /\
    P box' = P box.
Proof.
  intros Hi Hm. eexists. split.
  - rewrite boxes_integrate_boxes, list_lookup_fmap, Hi. reflexivity.
  - unfold integrate_box; cbn.
    destruct (Rgt_dec (inv_mass box) 0.0001) as [Hgt|_]; [lra|].
    now rewrite smulv_zero, vadd_zero_r.
Qed.

End IntegratorProperties.

(** *** Immovable boxes *)

(** [integrate_boxes] has no test that sets a box of inverse mass 0 aside:
    such a box goes through the same update. The update leaves an immovable
    box where it is when the step is 0 or the box has no velocity, and it
    leaves the box without a velocity in either case. *)
Lemma integrate_box_immovable (h damping : R)
    (forces torques : gmap string vec3) (box : Box) :
  immovable box ->
  h = 0 \/ vel box = vec3_zero ->
  box_at_rest (integrate_box h damping forces torques box) /\
  center (integrate_box h damping forces torques box) = center box /\
  orientation (integrate_box h damping forces torques box) = orientation box.
Proof.
  intros (Hm & Hang & Hq) Hstill.
  assert (Hav : mmulv (mmul (mmul (toMat3 (orientation box)) (IBodyInv box))
                            (transpose (toMat3 (orientation box))))
                      (vadd (L box)
                         (vmuls (vmuls (accumulate_mul torques (inv_mass box))
                                       h)
                                (1 / (1 + damping))))
                = vec3_zero).
  { rewrite Hm, accumulate_mul_zero.
    destruct Hang as [HL|HI].
    - rewrite HL.
      replace (vadd vec3_zero (vmuls (vmuls vec3_zero h) (1 / (1 + damping))))
        with vec3_zero by (cbv [vadd vmuls vec3_zero vx vy vz]; f_equal; ring).
      apply mmulv_zero.
    - rewrite HI. apply mmulv_mat_zero. }
  assert (Hor : orientation (integrate_box h damping forces torques box)
                = orientation box).
  { unfold integrate_box; cbn [orientation]. rewrite Hav.
    rewrite orientation_step_at_rest.
    now apply normalize_of_unit, qdot_of_unit_length. }
  assert (Hc : center (integrate_box h damping forces torques box)
               = center box).
  { unfold integrate_box; cbn [center].
    destruct Hstill as [->|Hv].
    - generalize (center box) (vel box). vec_crush.
    - now rewrite Hv, smulv_zero, vadd_zero_r. }
  split; [|split]; try assumption.
  unfold box_at_rest, unit_orientation. rewrite Hor.
  unfold integrate_box; cbn [inv_mass vel L IBodyInv].
  repeat split; try assumption.
  - rewrite Hm. apply vmuls_zero.
  - destruct Hang as [HL|HI]; [left|now right].
    rewrite Hm, accumulate_mul_zero, HL.
    cbv [vadd vmuls vec3_zero vx vy vz]; f_equal; ring.
Qed.

Lemma integrate_box_at_rest (h damping : R)
    (forces torques : gmap string vec3) (box : Box) :
  rest_kept box (integrate_box h damping forces torques box).
Proof.
  intros (Hm & Hv & Hang & Hq).
  apply integrate_box_immovable; [now repeat split|now right].
Qed.

(** After the update a box of inverse mass 0 has no velocity, whatever it
    had before: [vel = P * inv_mass]. *)
Lemma integrate_box_stills (h damping : R)
    (forces torques : gmap string vec3) (box : Box) :
  inv_mass box = 0 ->
  inv_mass (integrate_box h damping forces torques box) = 0 /\
  vel (integrate_box h damping forces torques box) = vec3_zero.
Proof.
  intros Hm. unfold integrate_box; cbn [inv_mass vel].
  split; [exact Hm|]. rewrite Hm. apply vmuls_zero.
Qed.

(** *** Order inside a log *)

Lemma strictly_before_split (p q : Event -> bool) (pre post : list Event) :
  Forall (fun e => q e = false) pre ->
  Forall (fun e => p e = false) post ->
  strictly_before p q (pre ++ post).
Proof.
  intros Hpre Hpost i j e1 e2 Hi Hj Hp Hq.
  destruct (decide (i < length pre)%nat) as [Hlt|Hge].
  - destruct (decide (j < length pre)%nat) as [Hjlt|Hjge]; [|lia].
    rewrite lookup_app_l in Hj by assumption.
    rewrite Forall_lookup in Hpre. specialize (Hpre _ _ Hj). congruence.
  - rewrite lookup_app_r in Hi by lia.
    rewrite Forall_lookup in Hpost. specialize (Hpost _ _ Hi). congruence.
Qed.

Lemma pass_follows_query_app (l1 l2 : list Event) :
  pass_follows_query l1 -> pass_follows_query l2 ->
  pass_follows_query (l1 ++ l2).
Proof.
  intros H1 H2 j Hj.
  destruct (decide (j < length l1)%nat) as [Hlt|Hge].
  - rewrite lookup_app_l in Hj by assumption.
    destruct (H1 j Hj) as (i & -> & Hi). exists i. split; [reflexivity|].
    rewrite lookup_app_l by lia. exact Hi.
  - rewrite lookup_app_r in Hj by lia.
    destruct (H2 _ Hj) as (i & Hji & Hi).
    exists (length l1 + i)%nat. split; [lia|].
    rewrite lookup_app_r by lia.
    now replace (length l1 + i - length l1)%nat with i by lia.
Qed.

Lemma pass_follows_query_none (l : list Event) :
  Forall (fun e => is_resolution e = false) l -> pass_follows_query l.
Proof.
  intros Hl j Hj. rewrite Forall_lookup in Hl.
  specialize (Hl _ _ Hj). discriminate.
Qed.

Lemma pass_follows_query_round : pass_follows_query pass_round.
Proof.
  intros j Hj. destruct j as [|[|[|j]]]; try discriminate.
  now exists 1%nat.
Qed.

Lemma is_output_not_resolution (tr : list Event) :
  Forall (fun e => is_output e = true) tr ->
  Forall (fun e => is_resolution e = false) tr.
Proof. intros H. eapply Forall_impl; [exact H|]. now intros []. Qed.

Lemma is_set_transform_not_collision (tr : list Event) :
  Forall (fun e => is_set_transform e = true) tr ->
  Forall (fun e => is_detection e = false /\ is_resolution e = false) tr.
Proof. intros H. eapply Forall_impl; [exact H|]. now intros []. Qed.

Lemma is_set_transform_not_lifecycle (tr : list Event) :
  Forall (fun e => is_set_transform e = true) tr ->
  Forall (fun e => is_lifecycle e = false) tr.
Proof. intros H. eapply Forall_impl; [exact H|]. now intros []. Qed.

Lemma Forall_and_l (p q : Event -> Prop) (tr : list Event) :
  Forall (fun e => p e /\ q e) tr -> Forall p tr.
Proof. intros H. eapply Forall_impl; [exact H|]. now intros e [? ?]. Qed.

Lemma Forall_and_r (p q : Event -> Prop) (tr : list Event) :
  Forall (fun e => p e /\ q e) tr -> Forall q tr.
Proof. intros H. eapply Forall_impl; [exact H|]. now intros e [? ?]. Qed.

(** ** The collision loop *)

Lemma rest_kept_refl (box : Box) : rest_kept box box.
Proof. intros Hrest. repeat split; try reflexivity; apply Hrest. Qed.

Lemma rest_kept_trans (b1 b2 b3 : Box) :
  rest_kept b1 b2 -> rest_kept b2 b3 -> rest_kept b1 b3.
Proof.
  intros H12 H23 H1. destruct (H12 H1) as (H2 & Hc2 & Ho2).
  destruct (H23 H2) as (H3 & Hc3 & Ho3).
  repeat split; try apply H3; congruence.
Qed.

Lemma rest_kept_list_refl (bs : list Box) : Forall2 rest_kept bs bs.
Proof. apply Forall_Forall2_diag, Forall_true, rest_kept_refl. Qed.

Lemma rest_kept_list_trans (l1 l2 l3 : list Box) :
  Forall2 rest_kept l1 l2 -> Forall2 rest_kept l2 l3 ->
  Forall2 rest_kept l1 l3.
Proof.
  intros H12. revert l3.
  induction H12 as [|b1 b2 l1 l2 Hb _ IH]; intros l3 H23; inversion H23; subst.
  - constructor.
  - constructor; [eapply rest_kept_trans; eassumption|now apply IH].
Qed.

Lemma rest_kept_fmap (f : Box -> Box) (bs : list Box) :
  (forall box, rest_kept box (f box)) -> Forall2 rest_kept bs (f <$> bs).
Proof.
  intros Hf. induction bs as [|box bs IH]; cbn; constructor; auto.
Qed.

Lemma place_kept_refl (box : Box) : place_kept box box.
Proof. intros Him. now split_and!. Qed.

Lemma place_kept_trans (b1 b2 b3 : Box) :
  place_kept b1 b2 -> place_kept b2 b3 -> place_kept b1 b3.
Proof.
  intros H12 H23 H1. destruct (H12 H1) as (H2 & Hc2 & Ho2 & Hv2).
  destruct (H23 H2) as (H3 & Hc3 & Ho3 & Hv3).
  split_and!; [assumption|congruence|congruence|auto].
Qed.

Lemma place_kept_list_refl (bs : list Box) : Forall2 place_kept bs bs.
Proof. apply Forall_Forall2_diag, Forall_true, place_kept_refl. Qed.

Lemma place_kept_list_trans (l1 l2 l3 : list Box) :
  Forall2 place_kept l1 l2 -> Forall2 place_kept l2 l3 ->
  Forall2 place_kept l1 l3.
Proof.
  intros H12. revert l3.
  induction H12 as [|b1 b2 l1 l2 Hb _ IH]; intros l3 H23; inversion H23; subst.
  - constructor.
  - constructor; [eapply place_kept_trans; eassumption|now apply IH].
Qed.

Lemma place_kept_fmap (f : Box -> Box) (bs : list Box) :
  (forall box, place_kept box (f box)) -> Forall2 place_kept bs (f <$> bs).
Proof.
  intros Hf. induction bs as [|box bs IH]; cbn; constructor; auto.
Qed.

Lemma reset_color_place_kept (box : Box) : place_kept box (reset_color box).
Proof. intros Him. now split_and!. Qed.

Lemma add_P_z_place_kept (d : R) (box : Box) : place_kept box (add_P_z d box).
Proof. intros Him. now split_and!. Qed.

(** A box at rest that is left in place is still at rest. *)
Lemma place_kept_rest (box box' : Box) :
  place_kept box box' -> rest_kept box box'.
Proof.
  intros Hp (Hm & Hv & Hang & Hq).
  destruct Hp as ((Hm' & Hang' & Hq') & Hc & Ho & Hv'); [now split_and!|].
  split_and!; auto. now split_and!; auto.
Qed.

Lemma place_kept_list_rest (l1 l2 : list Box) :
  Forall2 place_kept l1 l2 -> Forall2 rest_kept l1 l2.
Proof.
  intros H. eapply Forall2_impl; [exact H|]. apply place_kept_rest.
Qed.

Lemma passes_app (l1 l2 : list Event) :
  passes (l1 ++ l2) = (passes l1 + passes l2)%nat.
Proof.
  induction l1 as [|e l1 IH]; [reflexivity|].
  cbn. rewrite IH. lia.
Qed.

Lemma passes_rounds (k : nat) : passes (rounds k) = k.
Proof.
  induction k as [|k IH]; [reflexivity|].
  cbn [rounds]. rewrite passes_app, IH. reflexivity.
Qed.

Section CollisionLoop.
Context {Solver : Type} {ext : Externals Solver}.
Implicit Types (s : Simulator Solver) (c : Z) (fuel : nat).

(** The counter never passes the cap, and the loop touches only the solver,
    the boxes and the log. *)
Lemma solver_loop_frame fuel :
  forall c s c' s',
    solver_loop fuel c s = Some (c', s') ->
    (c <= 30)%Z ->
    (c <= c' <= 30)%Z /\
    spheres_ s' = spheres_ s /\
    world_ s' = world_ s /\
    bodies_ s' = bodies_ s /\
    exists tr, log s' = log s ++ tr /\
               Forall (fun e => is_lifecycle e = false) tr /\
               Forall (fun e => is_integration e = false) tr /\
               pass_follows_query tr /\
               passes tr = Z.to_nat (c' - c).
Proof.
  assert (Hquiet : pass_follows_query quiet_round)
    by (apply pass_follows_query_none; repeat constructor).
  pose proof pass_follows_query_round as Hround.
  assert (Hnil : pass_follows_query [])
    by (apply pass_follows_query_none; constructor).
  induction fuel as [|fuel IH]; intros c s c' s' Hrun Hc; [discriminate|].
  cbn [solver_loop] in Hrun.
  destruct (Z.eqb_spec c 30) as [->|Hne].
  { injection Hrun as <- <-. split_and!; try lia; try reflexivity.
    exists []. rewrite app_nil_r.
    split_and!; first [assumption|constructor]. }
  cbn in Hrun.
  destruct (impulse_testCollision _ _) as [sv bs]. cbn in Hrun.
  destruct (impulse_has_contacts sv) eqn:Hhas.
  - destruct (impulse_solve (sv, bs)) as [sv' bs']. cbn in Hrun.
    destruct (impulse_had_collisions sv').
    + apply IH in Hrun; [|lia].
      destruct Hrun
        as (Hcc & Hsp & Hw & Hb & tr & Hlog & Hlc & Hint & Hpfq & Hp).
      cbn in *. split_and!; try lia; try assumption.
      exists (pass_round ++ tr). rewrite Hlog, <- !app_assoc.
      split_and!;
        first [ reflexivity
              | solve [repeat constructor; assumption]
              | solve [apply pass_follows_query_app; assumption]
              | rewrite passes_app, Hp; cbn; lia ].
    + injection Hrun as <- <-. cbn. split_and!; try lia; try reflexivity.
      exists pass_round. rewrite <- !app_assoc.
      split_and!;
        first [ reflexivity
              | assumption
              | solve [repeat constructor]
              | replace (c + 1 - c)%Z with 1%Z by lia; reflexivity ].
  - cbn in Hrun.
    destruct (impulse_had_collisions sv).
    + apply IH in Hrun; [|lia].
      destruct Hrun
        as (Hcc & Hsp & Hw & Hb & tr & Hlog & Hlc & Hint & Hpfq & Hp).
      cbn in *. split_and!; try lia; try assumption.
      exists (quiet_round ++ tr). rewrite Hlog, <- !app_assoc.
      split_and!;
        first [ reflexivity
              | solve [repeat constructor; assumption]
              | solve [apply pass_follows_query_app; assumption]
              | rewrite passes_app, Hp; cbn; lia ].
    + injection Hrun as <- <-. cbn. split_and!; try lia; try reflexivity.
      exists quiet_round. rewrite <- !app_assoc.
      split_and!;
        first [ reflexivity
              | assumption
              | solve [repeat constructor]
              | rewrite Z.sub_diag; reflexivity ].
Qed.


(** Under [keeps_immovable] the loop leaves immovable boxes in place. *)
Lemma solver_loop_place_kept fuel :
  keeps_immovable ext ->
  forall c s c' s',
    solver_loop fuel c s = Some (c', s') ->
    Forall2 place_kept (boxes_ s) (boxes_ s').
Proof.
  intros Hkeep.
  induction fuel as [|fuel IH]; intros c s c' s' Hrun; [discriminate|].
  cbn [solver_loop] in Hrun.
  destruct (c =? 30)%Z.
  { injection Hrun as <- <-. apply place_kept_list_refl. }
  cbn in Hrun.
  pose proof (proj1 (Hkeep (impulse_clear (impulse_solver_ s)) (boxes_ s))
                (world_ s)) as Htest.
  revert Htest Hrun.
  destruct (impulse_testCollision _ _) as [sv bs]. cbn. intros Htest Hrun.
  destruct (impulse_has_contacts sv).
  - pose proof (proj2 (Hkeep sv bs)) as Hsolve. revert Hsolve Hrun.
    destruct (impulse_solve (sv, bs)) as [sv' bs']. cbn. intros Hsolve Hrun.
    assert (Hboth : Forall2 place_kept (boxes_ s) bs')
      by (eapply place_kept_list_trans; eassumption).
    destruct (impulse_had_collisions sv').
    + apply IH in Hrun. cbn in Hrun.
      eapply place_kept_list_trans; eassumption.
    + now injection Hrun as <- <-.
  - cbn in Hrun. destruct (impulse_had_collisions sv).
    + apply IH in Hrun. cbn in Hrun.
      eapply place_kept_list_trans; eassumption.
    + now injection Hrun as <- <-.
Qed.

(** When the loop condition follows the query, 31 iterations are enough, and
    the loop is a run of passes, closed by a query without contacts unless a
    pass ended the contacts or the cap was reached. *)
Lemma solver_loop_shape fuel :
  query_decides_loop ext ->
  forall c s,
    (0 <= c <= 30)%Z ->
    (31 - Z.to_nat c <= fuel)%nat ->
    exists (k : nat) (tail : list Event) s',
      solver_loop fuel c s = Some ((c + Z.of_nat k)%Z, s') /\
      (tail = [] \/ tail = quiet_round) /\
      log s' = log s ++ rounds k ++ tail.
Proof.
  intros Hlink.
  induction fuel as [|fuel IH]; intros c s Hc Hfuel; [lia|].
  cbn [solver_loop].
  destruct (Z.eqb_spec c 30) as [->|Hne].
  { exists O, [], s. cbn. rewrite app_nil_r. auto. }
  cbn.
  pose proof (Hlink (world_ s) (impulse_solver_ s) (boxes_ s)) as Hq.
  revert Hq.
  destruct (impulse_testCollision _ _) as [sv bs]. cbn. intros Hq.
  destruct (impulse_has_contacts sv) eqn:Hhas.
  - destruct (impulse_solve (sv, bs)) as [sv' bs']. cbn.
    destruct (impulse_had_collisions sv').
    + edestruct (IH (c + 1)%Z) as (k & tail & s' & Hrun & Htail & Hlog);
        [lia|lia|].
      rewrite Hrun. exists (S k), tail, s'. split_and!; try assumption.
      * do 2 f_equal. lia.
      * rewrite Hlog. cbn. now rewrite <- !app_assoc.
    + eexists 1%nat, [], _. split_and!; [reflexivity|now left|].
      cbn. now rewrite <- !app_assoc.
  - cbn. rewrite (Hq eq_refl).
    eexists O, quiet_round, _. split_and!; [|now right|].
    + now rewrite Z.add_0_r.
    + cbn. now rewrite <- !app_assoc.
Qed.

Lemma passes_solved_message (k : nat) : passes (solved_message k) = O.
Proof. unfold solved_message. now destruct (0 <? Z.of_nat k)%Z. Qed.

Lemma passes_tail (tail : list Event) :
  tail = [] \/ tail = quiet_round -> passes tail = O.
Proof. now intros [->| ->]. Qed.

(** What [handle_collisions] returns, by way of [solver_loop]. *)
Lemma handle_collisions_unfold fuel s s' :
  handle_collisions fuel s = Some s' ->
  exists c s1,
    solver_loop fuel 0
      (set_boxes (reset_color <$> boxes_ s)
         (emit [EvSphereCollisions]
            (set_spheres (sphere_handle_collisions (spheres_ s)) s)))
    = Some (c, s1) /\
    s' = (if (0 <? c)%Z then
            emit [EvCout [OutStr "Solved after "; OutInt c;
                          OutStr (" iterations" +:+ newline)]] s1
          else s1).
Proof.
  unfold handle_collisions. cbn.
  destruct (solver_loop _ _ _) as [[c s1]|]; [|discriminate].
  intros [= <-]. now exists c, s1.
Qed.

(** The shape of the log of [handle_collisions]. *)
Lemma handle_collisions_shape fuel s :
  query_decides_loop ext ->
  (31 <= fuel)%nat ->
  exists (k : nat) (tail : list Event) s',
    handle_collisions fuel s = Some s' /\
    (k <= 30)%nat /\
    (tail = [] \/ tail = quiet_round) /\
    log s' = log s ++ [EvSphereCollisions] ++ rounds k ++ tail
                   ++ solved_message k /\
    passes (log s') = (passes (log s) + k)%nat.
Proof.
  intros Hlink Hfuel. unfold handle_collisions.
  set (s1 := set_boxes _ _).
  destruct (solver_loop_shape fuel Hlink 0 s1) as (k & tail & s2 & Hrun & Htail & Hlog);
    [lia|cbn; lia|].
  destruct (solver_loop_frame fuel _ _ _ _ Hrun) as (Hk & _); [lia|].
  rewrite Hrun. rewrite Z.add_0_l in *.
  assert (Hlog' : log s2 = log s ++ [EvSphereCollisions] ++ rounds k ++ tail).
  { rewrite Hlog. subst s1. cbn. now rewrite <- app_assoc. }
  exists k, tail.
  eexists. split; [reflexivity|]. split; [lia|]. split; [assumption|].
  assert (Hfinal :
    log (if (0 <? Z.of_nat k)%Z then
           emit [EvCout [OutStr "Solved after "; OutInt (Z.of_nat k);
                         OutStr (" iterations" +:+ newline)]] s2
         else s2)
    = log s ++ [EvSphereCollisions] ++ rounds k ++ tail ++ solved_message k).
  { unfold solved_message. destruct (0 <? Z.of_nat k)%Z; cbn [log emit].
    - rewrite Hlog'. now rewrite <- !app_assoc.
    - rewrite Hlog'. now rewrite app_nil_r. }
  split; [exact Hfinal|].
  rewrite Hfinal, !passes_app, passes_rounds, passes_solved_message,
    (passes_tail tail Htail).
  cbn. lia.
Qed.

End CollisionLoop.

(** ** The effects of one frame *)

Lemma integrate_sphere_output (h damping : R) (forces : gmap string vec3)
    (idx : nat) (sphere : Sphere) (st : Statics) :
  Forall (fun e => is_output e = true)
         (integrate_sphere h damping forces idx sphere st).2.
Proof.
  unfold integrate_sphere.
  destruct (bool_decide _); cbn.
  - destruct (cnt st mod 100 =? 0)%N, (size_t_succ (cnt st) mod 100 =? 0)%N;
      cbn; repeat constructor.
  - constructor.
Qed.

Lemma integrate_spheres_from_output (h damping : R)
    (forces : gmap string vec3) (spheres : list Sphere) :
  forall (idx : nat) (st : Statics),
    Forall (fun e => is_output e = true)
           (integrate_spheres_from h damping forces idx spheres st).2.
Proof.
  induction spheres as [|sphere rest IH]; intros idx st; [constructor|].
  cbn [integrate_spheres_from].
  pose proof (integrate_sphere_output h damping forces idx sphere st) as H1.
  destruct (integrate_sphere h damping forces idx sphere st)
    as [[sphere' st1] out1].
  specialize (IH (S idx) st1).
  destruct (integrate_spheres_from h damping forces (S idx) rest st1)
    as [[rest' st2] out2].
  cbn in *. apply Forall_app. now split.
Qed.

Lemma push_transform_dom (boxes : list Box) (entries : list (nat * nat)) :
  forall w : PhysicsWorld,
    dom (world_bodies (foldl (push_transform boxes) w entries))
    = dom (world_bodies w).
Proof.
  induction entries as [|entry entries IH]; intros w; [reflexivity|].
  cbn [foldl]. rewrite IH. unfold push_transform.
  destruct (getUserData entry.2 w) as [i|]; [|reflexivity].
  destruct (boxes !! i) as [box|]; [|reflexivity].
  cbn. apply dom_alter_L.
Qed.

Lemma is_output_not_lifecycle (tr : list Event) :
  Forall (fun e => is_output e = true) tr ->
  Forall (fun e => is_lifecycle e = false) tr.
Proof. intros H. eapply Forall_impl; [exact H|]. now intros []. Qed.

Lemma is_output_not_integration (tr : list Event) :
  Forall (fun e => is_output e = true) tr ->
  Forall (fun e => is_integration e = false) tr.
Proof. intros H. eapply Forall_impl; [exact H|]. now intros []. Qed.

Lemma is_output_not_collision (tr : list Event) :
  Forall (fun e => is_output e = true) tr ->
  Forall (fun e => is_detection e = false /\ is_resolution e = false) tr.
Proof. intros H. eapply Forall_impl; [exact H|]. now intros []. Qed.

Lemma is_set_transform_fmap (entries : list (nat * nat)) :
  Forall (fun e => is_set_transform e = true)
         ((fun entry => EvSetTransform entry.2) <$> entries).
Proof. apply Forall_fmap, Forall_true. reflexivity. Qed.

Section FrameEffects.
Context {Solver : Type} {ext : Externals Solver}.
Implicit Types (s : Simulator Solver) (fuel : nat).

(** What one key event does: it writes, it changes a registry or the
    momentum of the first box; bodies and world stay. *)
Lemma key_callback_effect (e : KeyEvent) s :
  exists out,
    log (key_callback e s) = log s ++ out /\
    Forall (fun e => is_output e = true) out /\
    bodies_ (key_callback e s) = bodies_ s /\
    world_ (key_callback e s) = world_ s /\
    Forall2 place_kept (boxes_ s) (boxes_ (key_callback e s)).
Proof.
  assert (Hsame : forall s0 : Simulator Solver,
             Forall2 place_kept (boxes_ s0) (boxes_ s0))
    by (intros; apply place_kept_list_refl).
  assert (Halter : forall (d : R) (bs : list Box),
             Forall2 place_kept bs (alter (add_P_z d) 0%nat bs)).
  { intros d bs. apply Forall2_alter_r; [apply place_kept_list_refl|].
    intros x y Hx Hy Hxy. eapply place_kept_trans; [exact Hxy|].
    apply add_P_z_place_kept. }
  unfold key_callback, remove_global_force, remove_global_torque,
    add_global_force, add_global_torque.
  repeat match goal with
         | |- context [(?a =? ?b)%Z] => destruct (a =? b)%Z
         end;
    cbn;
    repeat match goal with
           | |- context [match ?m !! ?k with _ => _ end] =>
               destruct (m !! k)
           end;
    cbn; eexists;
    (split; [try rewrite <- !app_assoc; try reflexivity;
             symmetry; apply app_nil_r|]);
    (split; [repeat constructor|]); auto.
Qed.

Lemma key_events_effect (keys : list KeyEvent) :
  forall s,
  exists out,
    log (foldl (fun s e => key_callback e s) s keys) = log s ++ out /\
    Forall (fun e => is_output e = true) out /\
    bodies_ (foldl (fun s e => key_callback e s) s keys) = bodies_ s /\
    world_ (foldl (fun s e => key_callback e s) s keys) = world_ s /\
    Forall2 place_kept (boxes_ s)
            (boxes_ (foldl (fun s e => key_callback e s) s keys)).
Proof.
  induction keys as [|e keys IH]; intros s; cbn [foldl].
  - exists []. rewrite app_nil_r. split_and!; try reflexivity.
    + constructor.
    + apply place_kept_list_refl.
  - destruct (key_callback_effect e s) as (o1 & Hl1 & Ho1 & Hb1 & Hw1 & Hr1).
    destruct (IH (key_callback e s)) as (o2 & Hl2 & Ho2 & Hb2 & Hw2 & Hr2).
    exists (o1 ++ o2). split_and!.
    + now rewrite Hl2, Hl1, <- app_assoc.
    + apply Forall_app. now split.
    + congruence.
    + congruence.
    + eapply place_kept_list_trans; eassumption.
Qed.



(** The boxes after [integrate]: every box goes through the update, with
    the step size that [integrate] computes; in the first call the step
    size is [base_h_ * 133.33 * (curr_time - curr_time)]. *)
Lemma boxes_integrate (curr_time : R) s :
  boxes_ (integrate curr_time s)
  = integrate_box
      (base_h_ s * 133.33
       * (curr_time - (if integrate_init (statics s) then curr_time
                       else last_time_ s)))
      (damping_ s) (g_forces_ s) (g_torques_ s) <$> boxes_ s.
Proof.
  unfold integrate, integrate_boxes, integrate_spheres.
  destruct (integrate_spheres_from _ _ _ _ _ _) as [[spheres st] out].
  reflexivity.
Qed.

(** What [integrate] does to log, bodies, world and boxes. *)
Lemma integrate_effect (curr_time : R) s :
  exists diag moves,
    log (integrate curr_time s)
    = log s ++ [EvIntegrateSpheres] ++ diag ++ [EvIntegrateBoxes] ++ moves /\
    Forall (fun e => is_output e = true) diag /\
    Forall (fun e => is_set_transform e = true) moves /\
    bodies_ (integrate curr_time s) = bodies_ s /\
    dom (world_bodies (world_ (integrate curr_time s)))
    = dom (world_bodies (world_ s)) /\
    Forall2 rest_kept (boxes_ s) (boxes_ (integrate curr_time s)).
Proof.
  unfold integrate, integrate_boxes, integrate_spheres.
  set (s0 := set_last_time _ _).
  set (h := base_h_ s0 * 133.33 * _).
  pose proof (integrate_spheres_from_output h (damping_ s0) (g_forces_ s0)
                (spheres_ s0) 0 (statics s0)) as Hout.
  destruct (integrate_spheres_from _ _ _ _ _ _) as [[spheres st] out].
  cbn in Hout. cbn.
  exists out. eexists. split_and!.
  - rewrite <- !app_assoc. reflexivity.
  - exact Hout.
  - apply is_set_transform_fmap.
  - reflexivity.
  - apply push_transform_dom.
  - apply rest_kept_fmap. intros box. apply integrate_box_at_rest.
Qed.

End FrameEffects.

(** ** The frame loop *)

Section FrameLoop.
Context {Solver : Type} {ext : Externals Solver}.
Implicit Types (s : Simulator Solver) (fuel : nat).

Lemma handle_collisions_effect fuel s s' :
  handle_collisions fuel s = Some s' ->
  bodies_ s' = bodies_ s /\
  world_ s' = world_ s /\
  (exists tr, log s' = log s ++ EvSphereCollisions :: tr /\
              Forall (fun e => is_lifecycle e = false) tr /\
              Forall (fun e => is_integration e = false) tr /\
              pass_follows_query tr /\
              (passes tr <= 30)%nat) /\
  (keeps_immovable ext -> Forall2 place_kept (boxes_ s) (boxes_ s')).
Proof.
  intros Hrun. apply handle_collisions_unfold in Hrun.
  destruct Hrun as (c & s1 & Hloop & ->).
  pose proof (solver_loop_frame _ _ _ _ _ Hloop) as Hframe.
  destruct Hframe as (Hc & _ & Hw & Hb & tr & Hlog & Hlc & Hint & Hpfq & Hp);
    [lia|].
  cbn in Hw, Hb, Hlog.
  assert (Hrest : keeps_immovable ext ->
                  Forall2 place_kept (boxes_ s) (boxes_ s1)).
  { intros Hkeep.
    pose proof (solver_loop_place_kept _ Hkeep _ _ _ _ Hloop) as Hr.
    cbn in Hr. eapply place_kept_list_trans; [|exact Hr].
    apply place_kept_fmap, reset_color_place_kept. }
  assert (Hmsg : forall msg : list Output,
             log s ++ EvSphereCollisions :: tr ++ [EvCout msg]
             = (log s ++ [EvSphereCollisions]) ++ tr ++ [EvCout msg])
    by (intros; now rewrite <- app_assoc).
  destruct (0 <? c)%Z; cbn; split_and!; try assumption.
  - eexists (tr ++ [EvCout _]). rewrite Hlog, <- !app_assoc.
    split; [reflexivity|]. split_and!.
    + apply Forall_app. split; [exact Hlc|repeat constructor].
    + apply Forall_app. split; [exact Hint|repeat constructor].
    + apply pass_follows_query_app; [exact Hpfq|].
      apply pass_follows_query_none. repeat constructor.
    + rewrite passes_app, Hp. cbn. lia.
  - exists tr. rewrite Hlog, <- !app_assoc.
    split; [reflexivity|]. split_and!; try assumption.
    rewrite Hp. lia.
Qed.

(** A frame that returns: collision handling first, with every pass right
    after a query with contacts, then integration; nothing is created or
    destroyed, [bodies_] and the set of live bodies stay, and, under
    [keeps_immovable], immovable boxes at rest are left alone. *)
Lemma frame_effect fuel (inp : FrameInput) s s' :
  frame fuel inp s = Some s' ->
  bodies_ s' = bodies_ s /\
  dom (world_bodies (world_ s')) = dom (world_bodies (world_ s)) /\
  (exists pre post rest,
      log s' = log s ++ pre ++ post /\
      post = EvIntegrateSpheres :: rest /\
      EvIntegrateBoxes ∈ rest /\
      EvSphereCollisions ∈ pre /\
      Forall (fun e => is_integration e = false) pre /\
      Forall (fun e => is_detection e = false /\ is_resolution e = false)
             post /\
      pass_follows_query pre /\
      (passes pre <= 30)%nat /\
      Forall (fun e => is_lifecycle e = false) (pre ++ post)) /\
  (keeps_immovable ext -> Forall2 rest_kept (boxes_ s) (boxes_ s')).
Proof.
  unfold frame.
  destruct (key_events_effect (frame_keys inp) (emit [EvDraw] s))
    as (keys & Hl1 & Ho1 & Hb1 & Hw1 & Hr1).
  set (s1 := foldl _ _ _) in *. clearbody s1.
  destruct (handle_collisions fuel s1) as [s2|] eqn:Hhc; [|discriminate].
  intros [= <-].
  destruct (handle_collisions_effect _ _ _ Hhc)
    as (Hb2 & Hw2 & (tr2 & Hl2 & Hlc2 & Hint2 & Hpfq2 & Hp2) & Hr2).
  destruct (integrate_effect (frame_time inp) s2)
    as (diag & moves & Hl3 & Hd3 & Hm3 & Hb3 & Hw3 & Hr3).
  set (s3 := integrate _ _) in *. clearbody s3.
  cbn [bodies_ world_ log boxes_ emit]. split_and!.
  - now rewrite Hb3, Hb2, Hb1.
  - now rewrite Hw3, Hw2, Hw1.
  - exists ([EvDraw] ++ keys ++ [EvSphereCollisions] ++ tr2),
           ([EvIntegrateSpheres] ++ diag ++ [EvIntegrateBoxes] ++ moves
            ++ [EvPrintFps]),
           (diag ++ [EvIntegrateBoxes] ++ moves ++ [EvPrintFps]).
    assert (Hkeys_res : Forall (fun e => is_resolution e = false) keys)
      by now apply is_output_not_resolution.
    split_and!.
    + rewrite Hl3, Hl2, Hl1. cbn [log emit]. rewrite <- !app_assoc.
      reflexivity.
    + reflexivity.
    + rewrite elem_of_app. right. apply list_elem_of_here.
    + rewrite !elem_of_app. right. right. left. apply list_elem_of_here.
    + repeat first
        [ apply Forall_app; split
        | apply Forall_cons; split; [reflexivity|]
        | apply Forall_nil_2
        | assumption
        | apply is_output_not_integration; assumption ].
    + repeat first
        [ apply Forall_app; split
        | apply Forall_cons; split; [now split|]
        | apply Forall_nil_2
        | apply is_output_not_collision; assumption
        | apply is_set_transform_not_collision; assumption ].
    + repeat first
        [ apply pass_follows_query_app
        | assumption
        | apply pass_follows_query_none; first
            [assumption|repeat constructor] ].
    + rewrite !passes_app. cbn [passes is_resolution].
      assert (Hk0 : passes keys = O).
      { clear -Hkeys_res. induction Hkeys_res as [|e l He _ IH];
          [reflexivity|]. cbn. now rewrite He, IH. }
      rewrite Hk0. lia.
    + repeat first
        [ apply Forall_app; split
        | apply Forall_cons; split; [reflexivity|]
        | apply Forall_nil_2
        | assumption
        | apply is_output_not_lifecycle; assumption
        | apply is_set_transform_not_lifecycle; assumption ].
  - intros Hkeep.
    eapply rest_kept_list_trans; [exact (place_kept_list_rest _ _ Hr1)|].
    eapply rest_kept_list_trans;
      [exact (place_kept_list_rest _ _ (Hr2 Hkeep))|exact Hr3].
Qed.


(** A frame ends with [integrate]: after it no box of inverse mass 0 has a
    velocity, whatever the collaborators did to the boxes. *)
Lemma frame_stills_immovable fuel (inp : FrameInput) s s' :
  frame fuel inp s = Some s' ->
  Forall (fun box => inv_mass box = 0 -> vel box = vec3_zero) (boxes_ s').
Proof.
  unfold frame.
  generalize (foldl (fun s e => key_callback e s) (emit [EvDraw] s)
                    (frame_keys inp)).
  intros s1.
  destruct (handle_collisions fuel s1) as [s2|]; [|discriminate].
  pose proof (boxes_integrate (frame_time inp) s2) as Hb.
  revert Hb. generalize (integrate (frame_time inp) s2).
  intros s3 Hb [= <-]. cbn [boxes_ emit]. rewrite Hb.
  apply Forall_fmap, Forall_true. intros box Hm.
  now apply integrate_box_stills.
Qed.


Lemma run_effect fuel (frames : list FrameInput) :
  forall s s',
    run fuel frames s = Some s' ->
    bodies_ s' = bodies_ s /\
    dom (world_bodies (world_ s')) = dom (world_bodies (world_ s)) /\
    (exists tr, log s' = log s ++ tr /\
                Forall (fun e => is_lifecycle e = false) tr) /\
    (keeps_immovable ext -> Forall2 rest_kept (boxes_ s) (boxes_ s')).
Proof.
  induction frames as [|inp frames IH]; intros s s' Hrun; cbn [run] in Hrun.
  - injection Hrun as <-. split_and!; try reflexivity.
    + exists []. rewrite app_nil_r. split; [reflexivity|constructor].
    + intros _. apply rest_kept_list_refl.
  - destruct (frame fuel inp s) as [s1|] eqn:Hframe; [|discriminate].
    destruct (frame_effect _ _ _ _ Hframe)
      as (Hb1 & Hw1 & (pre & post & rest & Hl1 & _ & _ & _ & _ & _ & _ & _
                       & Hc1) & Hr1).
    destruct (IH _ _ Hrun) as (Hb2 & Hw2 & (t2 & Hl2 & Hc2) & Hr2).
    split_and!.
    + congruence.
    + congruence.
    + exists ((pre ++ post) ++ t2). rewrite Hl2, Hl1, <- !app_assoc.
      split; [reflexivity|]. rewrite app_assoc. apply Forall_app. now split.
    + intros Hkeep. eapply rest_kept_list_trans; [exact (Hr1 Hkeep)|].
      exact (Hr2 Hkeep).
Qed.


(** The log of a frame, when the loop condition follows the query. *)
Lemma frame_shape fuel (inp : FrameInput) s :
  query_decides_loop ext ->
  (31 <= fuel)%nat ->
  exists s' keys (k : nat) tail diag moves,
    frame fuel inp s = Some s' /\
    log s' = log s
             ++ ([EvDraw] ++ keys ++ [EvSphereCollisions] ++ rounds k ++ tail
                 ++ solved_message k)
             ++ ([EvIntegrateSpheres] ++ diag ++ [EvIntegrateBoxes] ++ moves
                 ++ [EvPrintFps]) /\
    Forall (fun e => is_output e = true) keys /\
    (k <= 30)%nat /\
    (tail = [] \/ tail = quiet_round) /\
    Forall (fun e => is_output e = true) diag /\
    Forall (fun e => is_set_transform e = true) moves.
Proof.
  intros Hlink Hfuel. unfold frame.
  destruct (key_events_effect (frame_keys inp) (emit [EvDraw] s))
    as (keys & Hl1 & Ho1 & _).
  set (s1 := foldl _ _ _) in *. clearbody s1.
  destruct (handle_collisions_shape fuel s1 Hlink Hfuel)
    as (k & tail & s2 & Hhc & Hk & Htail & Hl2 & _).
  rewrite Hhc.
  destruct (integrate_effect (frame_time inp) s2)
    as (diag & moves & Hl3 & Hd3 & Hm3 & _).
  set (s3 := integrate _ _) in *. clearbody s3.
  eexists _, keys, k, tail, diag, moves.
  split; [reflexivity|]. split_and!; try assumption.
  cbn [log emit]. rewrite Hl3, Hl2, Hl1. cbn [log emit].
  now rewrite <- !app_assoc.
Qed.

Lemma run_returns fuel (frames : list FrameInput) :
  query_decides_loop ext ->
  (31 <= fuel)%nat ->
  forall s, exists s', run fuel frames s = Some s'.
Proof.
  intros Hlink Hfuel.
  induction frames as [|inp frames IH]; intros s; cbn [run].
  - now exists s.
  - destruct (frame_shape fuel inp s Hlink Hfuel) as (s1 & ? & ? & ? & ? & ? & Hf & _).
    rewrite Hf. apply IH.
Qed.

Lemma frame_unit fuel (inp : FrameInput) s s' :
  frame fuel inp s = Some s' -> Forall unit_orientation (boxes_ s').
Proof.
  unfold frame.
  generalize (foldl (fun s e => key_callback e s) (emit [EvDraw] s)
                    (frame_keys inp)).
  intros s1.
  destruct (handle_collisions fuel s1) as [s2|]; [|discriminate].
  pose proof (integrate_unit (frame_time inp) s2) as Hunit.
  revert Hunit. generalize (integrate (frame_time inp) s2).
  intros s3 Hunit [= <-]. exact Hunit.
Qed.

Lemma run_snoc fuel (frames : list FrameInput) (inp : FrameInput) :
  forall s s',
    run fuel (frames ++ [inp]) s = Some s' ->
    exists s1, run fuel frames s = Some s1 /\ frame fuel inp s1 = Some s'.
Proof.
  induction frames as [|inp0 frames IH]; intros s s' Hrun; cbn in Hrun.
  - exists s. split; [reflexivity|].
    now destruct (frame fuel inp s).
  - cbn [run]. destruct (frame fuel inp0 s) as [s0|]; [|discriminate].
    now apply IH.
Qed.

End FrameLoop.

(** ** Creation and teardown of the collision bodies *)

Lemma created_bodies_app (l1 l2 : list Event) :
  created_bodies (l1 ++ l2) = created_bodies l1 ++ created_bodies l2.
Proof. apply omap_app. Qed.

Lemma created_bodies_none (tr : list Event) :
  Forall (fun e => is_lifecycle e = false) tr -> created_bodies tr = [].
Proof.
  induction 1 as [|e tr He _ IH]; [reflexivity|].
  unfold created_bodies in *. cbn. rewrite IH. now destruct e.
Qed.

Lemma not_lifecycle_not_destroy_world (tr : list Event) :
  Forall (fun e => is_lifecycle e = false) tr ->
  Forall (fun e => is_destroy_world e = false) tr.
Proof. intros H. eapply Forall_impl; [exact H|]. now intros []. Qed.

Section Lifecycle.
Context {Solver : Type} {ext : Externals Solver}.
Implicit Types (s : Simulator Solver) (fuel : nat).

Lemma register_body_inv (j : nat) s :
  registration_inv j s -> registration_inv (S j) (register_body s j).
Proof.
  intros (Htr & Hfree & Hlog). unfold register_body.
  destruct (boxes_ s !! j) as [box|].
  2: { split_and!; [assumption| |assumption]. intros i Hi. apply Hfree. lia. }
  cbn. rewrite (Hfree j) by lia. split_and!.
  - intros body. cbn. rewrite created_bodies_app. cbn.
    rewrite dom_alter_L, dom_insert_L, elem_of_union, elem_of_singleton,
      elem_of_app, list_elem_of_singleton.
    intros [[->|Hold]| [Hold| ->]].
    + exists j. apply lookup_insert_eq.
    + destruct (Htr body (or_introl Hold)) as (i & Hi). exists i.
      rewrite lookup_insert_ne; [exact Hi|].
      intros <-. rewrite (Hfree j) in Hi by lia. discriminate.
    + destruct (Htr body (or_intror Hold)) as (i & Hi). exists i.
      rewrite lookup_insert_ne; [exact Hi|].
      intros <-. rewrite (Hfree j) in Hi by lia. discriminate.
    + exists j. apply lookup_insert_eq.
  - intros i Hi. cbn. rewrite lookup_insert_ne by lia. apply Hfree. lia.
  - cbn. apply Forall_app. split; [assumption|repeat constructor].
Qed.

Lemma register_bodies_inv (m : nat) :
  forall (j : nat) s,
    registration_inv j s ->
    registration_inv (j + m) (foldl register_body s (seq j m)).
Proof.
  induction m as [|m IH]; intros j s Hinv; cbn [seq foldl].
  - now rewrite Nat.add_0_r.
  - replace (j + S m)%nat with (S j + m)%nat by lia.
    apply IH, register_body_inv, Hinv.
Qed.




(** After the constructor and [init] every body of the world is tracked in
    [bodies_], and the log holds no destruction of the world. *)
Lemma init_tracked (spheres_n : N) (solver0 : Solver) (last_time0 : R)
    (spheres : list Sphere) (boxes : list Box)
    (floor ceiling back front right left : Box) :
  let s := init spheres boxes floor ceiling back front right left
                (Simulator_ctor spheres_n solver0 last_time0) in
  all_tracked s /\ Forall (fun e => is_destroy_world e = false) (log s).
Proof.
  cbn zeta. unfold init.
  match goal with
  | |- context [foldl register_body ?s0 (seq 0 ?m)] =>
      destruct (register_bodies_inv m 0 s0) as (Htr & _ & Hlog)
  end.
  - split_and!.
    + intros body [Hin|Hin]; cbn in Hin.
      * now rewrite dom_empty_L in Hin.
      * now apply elem_of_nil in Hin.
    + reflexivity.
    + constructor.
  - now split.
Qed.

(** Running frames keeps the tracking. *)
Lemma run_tracked fuel (frames : list FrameInput) s s' :
  run fuel frames s = Some s' ->
  all_tracked s ->
  Forall (fun e => is_destroy_world e = false) (log s) ->
  all_tracked s' /\
  created_bodies (log s') = created_bodies (log s) /\
  Forall (fun e => is_destroy_world e = false) (log s').
Proof.
  intros Hrun Htr Hlog.
  destruct (run_effect _ _ _ _ Hrun) as (Hb & Hw & (tr & Hl & Hlc) & _).
  assert (Hcr : created_bodies (log s') = created_bodies (log s)).
  { now rewrite Hl, created_bodies_app, (created_bodies_none tr Hlc),
      app_nil_r. }
  split_and!; [|exact Hcr|].
  - intros body. rewrite Hw, Hcr, Hb. apply Htr.
  - rewrite Hl. apply Forall_app. split; [assumption|].
    now apply not_lifecycle_not_destroy_world.
Qed.

(** The body loop of the destructor. *)
Lemma destroy_bodies_effect (entries : list (nat * nat)) :
  forall s,
    let s' :=
      foldl (fun s body_pair =>
               emit [EvDestroyBody body_pair.2]
                    (set_world (destroyCollisionBody body_pair.2 (world_ s)) s))
            s entries in
    log s' = log s ++ (EvDestroyBody <$> entries.*2) /\
    dom (world_bodies (world_ s'))
    = dom (world_bodies (world_ s)) ∖ list_to_set entries.*2.
Proof.
  induction entries as [|entry entries IH]; intros s; cbn [foldl fmap list_fmap].
  - cbn. rewrite app_nil_r. split; [reflexivity|].
    now rewrite difference_empty_L.
  - cbn zeta in *. destruct (IH (emit [EvDestroyBody entry.2]
                        (set_world (destroyCollisionBody entry.2 (world_ s)) s)))
      as (Hlog & Hdom).
    rewrite Hlog, Hdom. cbn. split.
    + now rewrite <- app_assoc.
    + rewrite dom_delete_L. now rewrite difference_difference_l_L.
Qed.

Lemma dtor_effect s :
  log (Simulator_dtor s)
  = log s ++ (EvDestroyBody <$> (map_to_list (bodies_ s)).*2)
          ++ [EvDestroyWorld] /\
  dom (world_bodies (world_ (Simulator_dtor s)))
  = dom (world_bodies (world_ s)) ∖ list_to_set (map_to_list (bodies_ s)).*2.
Proof.
  unfold Simulator_dtor.
  destruct (destroy_bodies_effect (map_to_list (bodies_ s)) s) as (Hlog & Hdom).
  cbn zeta in *. cbn [log world_ emit]. rewrite Hlog, Hdom.
  split; [now rewrite <- app_assoc|reflexivity].
Qed.

End Lifecycle.

(** ** The frame: collision handling, then integration *)

Section FrameTheorems.
Context {Solver : Type} {ext : Externals Solver}.
Implicit Types (s : Simulator Solver) (fuel : nat).

(** C3: after [integrate_boxes] (and so after [integrate], which ends with
    it) the orientation of every box has norm 1, from any state and for any
    step size: the update of each box ends with [glm::normalize]. Hence the
    orientation of every box has norm 1 after every frame, for any number
    of frames. *)
Theorem orientation_unit_after_integration (h curr_time : R) fuel
    (frames : list FrameInput) (inp : FrameInput) s :
  Forall unit_orientation (boxes_ (integrate_boxes h s)) /\
  Forall unit_orientation (boxes_ (integrate curr_time s)) /\
  (forall s', run fuel (frames ++ [inp]) s = Some s' ->
     Forall unit_orientation (boxes_ s')).
Proof.
  split_and!.
  - apply integrate_boxes_unit.
  - apply integrate_unit.
  - intros s' Hrun. destruct (run_snoc _ _ _ _ _ Hrun) as (s1 & _ & Hframe).
    eapply frame_unit, Hframe.
Qed.

(** C2: [handle_collisions] applies at most 30 impulse passes: whenever it
    returns, the log has gained at most 30 passes. With a solver whose loop
    condition follows the query, 31 iterations of fuel are enough for the
    call to return, and the box loop is a run of [k <= 30] rounds (clear,
    query with contacts, pass), closed by one query without contacts and no
    pass unless a pass ended the contacts or the counter reached 30; [k] is
    the final value of the counter. *)
Theorem handle_collisions_bounded fuel s :
  (forall s', handle_collisions fuel s = Some s' ->
     (passes (log s') <= passes (log s) + 30)%nat) /\
  (query_decides_loop ext ->
   (31 <= fuel)%nat ->
   exists (k : nat) (tail : list Event) s',
     handle_collisions fuel s = Some s' /\
     (k <= 30)%nat /\
     (tail = [] \/ tail = quiet_round) /\
     log s' = log s ++ [EvSphereCollisions] ++ rounds k ++ tail
                    ++ solved_message k /\
     passes (log s') = (passes (log s) + k)%nat).
Proof.
  split.
  - intros s' Hrun.
    destruct (handle_collisions_effect _ _ _ Hrun)
      as (_ & _ & (tr & Hlog & _ & _ & _ & Hp) & _).
    rewrite Hlog, passes_app. cbn. lia.
  - intros Hlink Hfuel. now apply handle_collisions_shape.
Qed.

(** C8 (amended): in every iteration of the frame loop that returns, the
    particle collision pass, every box collision query and every impulse
    pass are over before the integration of particles and boxes starts, and
    every impulse pass comes right after a query that reported contacts.
    (Queries and passes alternate inside the loop.) *)
Theorem frame_order fuel (inp : FrameInput) s s' :
  frame fuel inp s = Some s' ->
  exists pre post rest,
    log s' = log s ++ pre ++ post /\
    post = EvIntegrateSpheres :: rest /\
    EvIntegrateBoxes ∈ rest /\
    EvSphereCollisions ∈ pre /\
    Forall (fun e => is_integration e = false) pre /\
    Forall (fun e => is_detection e = false /\ is_resolution e = false) post /\
    pass_follows_query pre /\
    strictly_before is_detection is_integration (pre ++ post) /\
    strictly_before is_resolution is_integration (pre ++ post).
Proof.
  intros Hframe.
  destruct (frame_effect _ _ _ _ Hframe)
    as (_ & _ & (pre & post & rest & Hlog & Hpost & Hib & Hsc & Hpre & Hcoll
                 & Hpfq & _ & _) & _).
  exists pre, post, rest. split_and!; try assumption.
  - apply strictly_before_split; [assumption|].
    eapply Forall_and_l. exact Hcoll.
  - apply strictly_before_split; [assumption|].
    eapply Forall_and_r. exact Hcoll.
Qed.


(** C9: in the life of a simulator (constructor, [init], any frames,
    destructor) the destructor destroys every collision body that was
    created, each before the world: its part of the log is the destruction
    of the bodies of [bodies_] followed by the destruction of the world as
    the last event, and no body is live in the world at that point. *)
Theorem teardown_destroys_bodies_first fuel (frames : list FrameInput)
    (spheres_n : N) (solver0 : Solver) (last_time0 : R)
    (spheres : list Sphere) (boxes : list Box)
    (floor ceiling back front right left : Box) s :
  run fuel frames
      (init spheres boxes floor ceiling back front right left
            (Simulator_ctor spheres_n solver0 last_time0)) = Some s ->
  exists destroyed : list nat,
    log (Simulator_dtor s)
    = log s ++ (EvDestroyBody <$> destroyed) ++ [EvDestroyWorld] /\
    Forall (fun body => body ∈ destroyed) (created_bodies (log s)) /\
    strictly_before is_destroy_body is_destroy_world (log (Simulator_dtor s)) /\
    dom (world_bodies (world_ (Simulator_dtor s))) = ∅.
Proof.
  intros Hrun.
  destruct (init_tracked spheres_n solver0 last_time0 spheres boxes
              floor ceiling back front right left) as (Htr0 & Hlog0).
  destruct (run_tracked _ _ _ _ Hrun Htr0 Hlog0) as (Htr & _ & Hlog).
  destruct (dtor_effect s) as (Hdlog & Hddom).
  assert (Hin : forall body i, bodies_ s !! i = Some body ->
                               body ∈ (map_to_list (bodies_ s)).*2).
  { intros body i Hi. apply list_elem_of_fmap. exists (i, body).
    split; [reflexivity|]. now apply elem_of_map_to_list. }
  exists (map_to_list (bodies_ s)).*2. split_and!.
  - exact Hdlog.
  - apply Forall_forall. intros body Hbody.
    destruct (Htr body (or_intror Hbody)) as (i & Hi). eauto.
  - rewrite Hdlog, app_assoc. apply strictly_before_split.
    + apply Forall_app. split; [assumption|].
      apply Forall_fmap, Forall_true. reflexivity.
    + repeat constructor.
  - rewrite Hddom. apply set_eq. intros body.
    rewrite elem_of_difference, elem_of_list_to_set. split.
    + intros [Hlive Hnot]. exfalso. apply Hnot.
      destruct (Htr body (or_introl Hlive)) as (i & Hi). eauto.
    + intros Hempty. now apply not_elem_of_empty in Hempty.
Qed.

End FrameTheorems.

(** ** Concrete runs *)

Lemma settling_query_decides_loop (n : nat) :
  query_decides_loop (settling_externals n).
Proof. intros w sv bs H. exact H. Qed.


Lemma net_singleton (name : string) (f : vec3) :
  net ({[name := f]} : gmap string vec3) = f.
Proof.
  rewrite <- insert_empty, net_insert_fresh by apply lookup_empty.
  now rewrite net_empty, vadd_zero_r.
Qed.

(** Counterexample to C6, for a force already registered under the name:
    with [(1,0,0)] registered as ["x"], adding [(0,1,0)] as ["x"] and
    removing ["x"] leaves the empty registry, of net force 0, not (1,0,0). *)
Lemma add_remove_drops_registered_force :
  let s := sample_simulator tt {["x" := Vec3 1 0 0]} [] in
  let s' := remove_global_force "x" (add_global_force "x" (Vec3 0 1 0) s) in
  net (g_forces_ s) = Vec3 1 0 0 /\
  net (g_forces_ s') = Vec3 0 0 0 /\
  net (g_forces_ s') <> net (g_forces_ s).
Proof.
  cbn zeta. rewrite add_then_remove_state. cbn [g_forces_ sample_simulator set_g_forces].
  rewrite delete_singleton_eq, net_empty, net_singleton.
  split_and!; try reflexivity.
  intros H. injection H as H. lra.
Qed.

Lemma add_then_remove_global_force_witness :
  let s := sample_simulator tt ∅ [] in
  let s' := remove_global_force "x" (add_global_force "x" (Vec3 0 1 0) s) in
  s' = s /\ net (g_forces_ s') = net (g_forces_ s).
Proof.
  apply (add_then_remove_global_force "x" (Vec3 0 1 0)
           (sample_simulator tt ∅ [])).
  apply lookup_empty.
Defined.

Lemma remove_global_force_torque_witness :
  let s := sample_simulator tt {["x" := Vec3 1 0 0]} [] in
  g_forces_ (remove_global_force "y" s) = g_forces_ s /\
  g_forces_ (remove_global_force "x" s) !! "x" = None /\
  g_torques_ (remove_global_torque "x" s) = g_torques_ s.
Proof.
  cbn zeta.
  pose proof (remove_global_force_torque "y"
                (sample_simulator tt {["x" := Vec3 1 0 0]} [])) as Hy.
  pose proof (remove_global_force_torque "x"
                (sample_simulator tt {["x" := Vec3 1 0 0]} [])) as Hx.
  destruct Hy as (Hy & _). destruct Hx as (_ & Hx & Ht & _).
  split_and!.
  - apply Hy. reflexivity.
  - apply Hx. exists (Vec3 1 0 0). reflexivity.
  - apply Ht. reflexivity.
Defined.

Lemma integrate_spheres_semi_implicit_witness :
  let sphere := mkSphere vec3_zero (Vec3 1 0 0) 2 [1%nat] in
  let s := set_spheres [sphere] (sample_simulator tt {["g" := GRAVITY]} []) in
  0 < sphere_mass sphere /\
  exists sphere',
    spheres_ (integrate_spheres 1 s) !! 0%nat = Some sphere' /\
    sphere_pos sphere' = vadd (sphere_pos sphere) (smulv 1 (sphere_vel sphere'))
    /\ colliders_ sphere' = [].
Proof.
  cbn zeta. split; [cbn; lra|].
  destruct (integrate_spheres_semi_implicit (Solver := unit) 1
              (set_spheres [mkSphere vec3_zero (Vec3 1 0 0) 2 [1%nat]]
                 (sample_simulator tt {["g" := GRAVITY]} []))
              0 (mkSphere vec3_zero (Vec3 1 0 0) 2 [1%nat]))
    as (sphere' & Hl & _ & _ & Hp & _ & Hc).
  - reflexivity.
  - cbn. lra.
  - exists sphere'. auto.
Defined.

Lemma light_inverse_mass_keeps_momentum_witness :
  let box := box_at_origin 0.0001 (Vec3 1 0 0) in
  let s := sample_simulator tt {["g" := GRAVITY]} [box] in
  exists box',
    boxes_ (integrate_boxes 1 s) !! 0%nat = Some box' /\ P box' = P box.
Proof.
  cbn zeta.
  apply (light_inverse_mass_keeps_momentum (Solver := unit) 1
           (sample_simulator tt {["g" := GRAVITY]}
              [box_at_origin 0.0001 (Vec3 1 0 0)])
           0 (box_at_origin 0.0001 (Vec3 1 0 0))).
  - reflexivity.
  - cbn. lra.
Defined.

Lemma orientation_unit_after_integration_witness :
  let s := sample_simulator (0%nat, false) {["gravity" := GRAVITY]}
             [box_at_origin 1 (Vec3 1 0 0); box_at_origin 0 vec3_zero] in
  Forall unit_orientation (boxes_ (integrate_boxes 1 s)) /\
  exists s',
    run (ext := settling_externals 2) 31
        [mkFrameInput [] 1; mkFrameInput [] 2] s = Some s' /\
    Forall unit_orientation (boxes_ s').
Proof.
  cbn zeta.
  pose proof (orientation_unit_after_integration
                (ext := settling_externals 2) 1 1 31
                [mkFrameInput [] 1] (mkFrameInput [] 2)
                (sample_simulator (0%nat, false) {["gravity" := GRAVITY]}
                   [box_at_origin 1 (Vec3 1 0 0); box_at_origin 0 vec3_zero]))
    as (Hstep & _ & Hframes).
  split; [exact Hstep|].
  destruct (run_returns (ext := settling_externals 2) 31
              ([mkFrameInput [] 1] ++ [mkFrameInput [] 2])
              (settling_query_decides_loop 2) (le_n 31)
              (sample_simulator (0%nat, false) {["gravity" := GRAVITY]}
                 [box_at_origin 1 (Vec3 1 0 0); box_at_origin 0 vec3_zero]))
    as (s' & Hrun).
  exists s'. split; [exact Hrun|exact (Hframes s' Hrun)].
Defined.

Lemma handle_collisions_bounded_witness :
  let s := sample_simulator (0%nat, false) ∅ [box_at_origin 1 vec3_zero] in
  exists (k : nat) (tail : list Event) s',
    handle_collisions (ext := settling_externals 2) 31 s = Some s' /\
    (k <= 30)%nat /\
    (tail = [] \/ tail = quiet_round) /\
    log s' = log s ++ [EvSphereCollisions] ++ rounds k ++ tail
                   ++ solved_message k /\
    passes (log s') = (passes (log s) + k)%nat /\
    (passes (log s') <= passes (log s) + 30)%nat.
Proof.
  cbn zeta.
  pose proof (handle_collisions_bounded (ext := settling_externals 2) 31
                (sample_simulator (0%nat, false) ∅
                   [box_at_origin 1 vec3_zero])) as [Hcap Hshape].
  destruct (Hshape (settling_query_decides_loop 2) (le_n 31))
    as (k & tail & s' & Hrun & Hk & Htail & Hlog & Hp).
  exists k, tail, s'. split_and!; try assumption.
  exact (Hcap s' Hrun).
Defined.

(** The scene of [settling_externals 2] takes two passes, then a query
    without contacts ends the loop. *)
Example settling_two_passes :
  let s := sample_simulator (0%nat, false) ∅ [] in
  exists s',
    handle_collisions (ext := settling_externals 2) 31 s = Some s' /\
    log s' = [EvSphereCollisions] ++ rounds 2 ++ quiet_round
             ++ solved_message 2.
Proof. cbn zeta. eexists. split; vm_compute; reflexivity. Qed.

(** With a contact that never goes away the loop stops at the cap. *)
Example stuck_scene_stops_at_cap :
  let s := sample_simulator 0%nat ∅ [] in
  exists s',
    handle_collisions (ext := stuck_externals) 31 s = Some s' /\
    log s' = [EvSphereCollisions] ++ rounds 30 ++ solved_message 30 /\
    impulse_solver_ s' = 30%nat.
Proof. cbn zeta. eexists. split_and!; vm_compute; reflexivity. Qed.

(** What [keeps_immovable] is for: [integrate_boxes] advances the center of
    every box by [h * vel], with no test on the inverse mass. Handed a box
    of inverse mass 0 with the velocity (1,0,0) after the first frame, a
    frame one second later moves it. [integrate] leaves no such box behind
    ([frame_stills_immovable]); only the collision query or the impulse
    pass could hand one over. *)
Example immovable_box_with_velocity_moves :
  let box := box_at_origin 0 (Vec3 1 0 0) in
  let s := sample_simulator tt {["gravity" := GRAVITY]} [box] in
  inv_mass box = 0 /\
  exists s' box',
    frame (ext := quiet_externals) 31 (mkFrameInput [] 1) s = Some s' /\
    boxes_ s' !! 0%nat = Some box' /\
    center box' = Vec3 (0.03 * 133.33 * (1 - 0) * 1) 0 0 /\
    center box' <> center box.
Proof.
  cbn zeta. split; [reflexivity|].
  eexists.
  exists (integrate_box (0.03 * 133.33 * (1 - 0)) 0.09
            {["gravity" := GRAVITY]} ∅
            (reset_color (box_at_origin 0 (Vec3 1 0 0)))).
  split; [reflexivity|]. split; [reflexivity|].
  assert (Hc : center (integrate_box (0.03 * 133.33 * (1 - 0)) 0.09
                         {["gravity" := GRAVITY]} ∅
                         (reset_color (box_at_origin 0 (Vec3 1 0 0))))
               = Vec3 (0.03 * 133.33 * (1 - 0) * 1) 0 0).
  { unfold integrate_box, box_at_origin, reset_color; cbn.
    unfold vadd, smulv, vec3_zero; cbn. f_equal; lra. }
  split; [exact Hc|].
  rewrite Hc. cbn. intros H. injection H as H. lra.
Qed.

Lemma normalize_keeps_z (q : quat) : qz q <> 0 -> qz (normalize q) <> 0.
Proof.
  intros Hz. unfold normalize.
  assert (Hd : 0 < qdot q q).
  { unfold qdot. assert (0 < qz q * qz q) by nra. nra. }
  pose proof (sqrt_lt_R0 _ Hd) as Hlen. fold (qlength q) in Hlen.
  destruct (Rle_dec (qlength q) 0) as [Hle|_]; [lra|]. cbn.
  apply Rmult_integral_contrapositive_currified; [assumption|].
  unfold Rdiv. rewrite Rmult_1_l. apply Rinv_neq_0_compat. lra.
Qed.

(** What [immovable] asks of the box as built: a box of inverse mass 0 with
    angular momentum and a non-zero inverse inertia turns, for inverse mass
    0 takes the torques away and leaves the angular momentum. *)
Example immovable_box_with_spin_turns :
  let box :=
    mkBox (Vec3 1 1 1) vec3_zero (Vec3 1 1 1) vec3_zero vec3_zero 0
          quat_identity (Mat3 1 0 0 0 1 0 0 0 1) mat3_zero (Vec3 0 0 2)
          vec3_zero in
  inv_mass box = 0 /\ vel box = vec3_zero /\
  orientation (integrate_box 1 0.09 ∅ ∅ box) <> orientation box.
Proof.
  cbn zeta. split; [reflexivity|]. split; [reflexivity|].
  intros H. apply (f_equal qz) in H. revert H.
  unfold integrate_box. cbn [orientation]. apply normalize_keeps_z.
  unfold accumulate_mul. rewrite map_to_list_empty. cbn. lra.
Qed.

(** A box of inverse mass 0 at rest whose orientation is not of unit norm
    is re-normalised by the first step. *)
Example immovable_box_is_normalised :
  let box :=
    mkBox (Vec3 1 1 1) vec3_zero (Vec3 1 1 1) vec3_zero vec3_zero 0
          (Quat 2 0 0 0) mat3_zero mat3_zero vec3_zero vec3_zero in
  inv_mass box = 0 /\ vel box = vec3_zero /\ L box = vec3_zero /\
  qlength (orientation (integrate_box 1 0.09 ∅ ∅ box)) = 1 /\
  orientation (integrate_box 1 0.09 ∅ ∅ box) <> orientation box.
Proof.
  cbn zeta. split_and!; try reflexivity.
  - apply normalize_unit.
  - intros H. apply (f_equal qlength) in H. revert H.
    unfold integrate_box. cbn [orientation]. rewrite normalize_unit.
    unfold qlength, qdot. cbn.
    replace (2 * 2 + 0 * 0 + (0 * 0 + 0 * 0)) with (2 * 2) by lra.
    rewrite sqrt_square by lra. lra.
Qed.


(** Counterexample to C8, in the box loop: when two passes are needed, the
    second collision query comes after the first impulse pass. *)
Lemma later_query_follows_earlier_pass :
  let s := sample_simulator (0%nat, false) ∅ [] in
  exists s',
    frame (ext := settling_externals 2) 31 (mkFrameInput [] 1) s = Some s' /\
    log s' !! 4%nat = Some EvSolve /\
    log s' !! 6%nat = Some (EvTestCollision true) /\
    ~ strictly_before is_detection is_resolution (log s').
Proof.
  cbn zeta. eexists. split; [vm_compute; reflexivity|].
  split; [reflexivity|]. split; [reflexivity|].
  intros Hbefore.
  specialize (Hbefore 6%nat 4%nat (EvTestCollision true) EvSolve
                eq_refl eq_refl eq_refl eq_refl).
  lia.
Qed.

Lemma frame_order_witness :
  let s := sample_simulator (0%nat, false) ∅ [box_at_origin 1 vec3_zero] in
  exists s' pre post rest,
    frame (ext := settling_externals 2) 31 (mkFrameInput [] 1) s = Some s' /\
    log s' = log s ++ pre ++ post /\
    post = EvIntegrateSpheres :: rest /\
    EvIntegrateBoxes ∈ rest /\
    EvSphereCollisions ∈ pre /\
    Forall (fun e => is_integration e = false) pre /\
    Forall (fun e => is_detection e = false /\ is_resolution e = false) post /\
    pass_follows_query pre /\
    strictly_before is_detection is_integration (pre ++ post) /\
    strictly_before is_resolution is_integration (pre ++ post).
Proof.
  cbn zeta.
  destruct (frame_shape (ext := settling_externals 2) 31 (mkFrameInput [] 1)
              (sample_simulator (0%nat, false) ∅ [box_at_origin 1 vec3_zero])
              (settling_query_decides_loop 2) (le_n 31))
    as (s' & _ & _ & _ & _ & _ & Hframe & _).
  destruct (frame_order (ext := settling_externals 2) _ _ _ _ Hframe)
    as (pre & post & rest & Hrest).
  exists s', pre, post, rest. split; [exact Hframe|exact Hrest].
Defined.

Lemma teardown_destroys_bodies_first_witness :
  let box := box_at_origin 0 vec3_zero in
  exists s,
    run (ext := quiet_externals) 31 [mkFrameInput [] 1]
        (init [] [box_at_origin 1 vec3_zero] box box box box box box
              (Simulator_ctor 0 tt 0)) = Some s /\
    exists destroyed : list nat,
      log (Simulator_dtor s)
      = log s ++ (EvDestroyBody <$> destroyed) ++ [EvDestroyWorld] /\
      Forall (fun body => body ∈ destroyed) (created_bodies (log s)) /\
      strictly_before is_destroy_body is_destroy_world
                      (log (Simulator_dtor s)) /\
      dom (world_bodies (world_ (Simulator_dtor s))) = ∅.
Proof.
  cbn zeta. eexists. split; [reflexivity|].
  apply (teardown_destroys_bodies_first (ext := quiet_externals) 31
           [mkFrameInput [] 1] 0%N tt 0 [] [box_at_origin 1 vec3_zero]
           (box_at_origin 0 vec3_zero) (box_at_origin 0 vec3_zero)
           (box_at_origin 0 vec3_zero) (box_at_origin 0 vec3_zero)
           (box_at_origin 0 vec3_zero) (box_at_origin 0 vec3_zero)).
  reflexivity.
Defined.

(** ** Further properties: input *)

Section InputProperties.
Context {Solver : Type} {ext : Externals Solver}.
Implicit Types (s : Simulator Solver) (e : KeyEvent).

Lemma get_rand_range (r : Z) (low high : R) :
  (0 < RAND_MAX)%Z ->
  (0 <= r <= RAND_MAX)%Z ->
  low < high ->
  low <= get_rand r low high <= high /\
  get_rand 0 low high = low /\
  get_rand RAND_MAX low high = high.
Proof.
  intros HM [Hr0 HrM] Hlh. unfold get_rand.
  assert (HMr : 0 < IZR RAND_MAX) by now apply IZR_lt.
  assert (Hx0 : 0 <= IZR r) by now apply IZR_le.
  assert (HxM : IZR r <= IZR RAND_MAX) by now apply IZR_le.
  assert (Hd : 0 < high - low) by lra.
  assert (Heq : forall x, x / (IZR RAND_MAX / (high - low))
                          = x * (high - low) / IZR RAND_MAX)
    by (intros x; field; lra).
  rewrite !Heq. split_and!.
  - assert (0 <= IZR r * (high - low) / IZR RAND_MAX); [|lra].
    apply Rmult_le_pos; [nra|]. left. now apply Rinv_0_lt_compat.
  - assert (IZR r * (high - low) / IZR RAND_MAX <= high - low); [|lra].
    apply (Rmult_le_reg_r (IZR RAND_MAX)); [assumption|].
    replace (IZR r * (high - low) / IZR RAND_MAX * IZR RAND_MAX)
      with (IZR r * (high - low)) by (field; lra).
    nra.
  - lra.
  - field. lra.
Qed.

(** [get_rand] stays between its bounds: for a value of [rand()] between 0
    and [RAND_MAX] and [low < high] the result lies in [[low, high]], is
    [low] for 0 and [high] for [RAND_MAX]. *)
Theorem get_rand_bounds (r : Z) (low high : R) :
  (0 < RAND_MAX)%Z ->
  (0 <= r <= RAND_MAX)%Z ->
  low < high ->
  low <= get_rand r low high <= high /\
  get_rand 0 low high = low /\
  get_rand RAND_MAX low high = high.
Proof. apply get_rand_range. Qed.

(** Key events that the callback ignores leave the simulator exactly as it
    is, log included: any key other than P, T, R, E; a repeat of P or T; any
    action of R or E other than a press. *)
Theorem key_callback_ignored e s :
  (key e <> GLFW_KEY_P /\ key e <> GLFW_KEY_T /\
   key e <> GLFW_KEY_R /\ key e <> GLFW_KEY_E) \/
  (action e = GLFW_REPEAT /\ (key e = GLFW_KEY_P \/ key e = GLFW_KEY_T)) \/
  (action e <> GLFW_PRESS /\ (key e = GLFW_KEY_R \/ key e = GLFW_KEY_E)) ->
  key_callback e s = s.
Proof.
  unfold key_callback.
  intros [(HP & HT & HR & HE)|[(Ha & [Hk|Hk])|(Ha & [Hk|Hk])]].
  - apply Z.eqb_neq in HP, HT, HR, HE. now rewrite HP, HT, HR, HE.
  - now rewrite Hk, Ha.
  - now rewrite Hk, Ha.
  - apply Z.eqb_neq in Ha. now rewrite Hk, Ha.
  - apply Z.eqb_neq in Ha. now rewrite Hk, Ha.
Qed.

(** No key event touches a force other than ["P-force"] or a torque other
    than ["torque"] (gravity stays registered whatever is typed), nor the
    particles, the collision bodies or the world, nor the number of boxes. *)
Theorem key_callback_scope e s (name : string) :
  (name <> "P-force" ->
   g_forces_ (key_callback e s) !! name = g_forces_ s !! name) /\
  (name <> "torque" ->
   g_torques_ (key_callback e s) !! name = g_torques_ s !! name) /\
  spheres_ (key_callback e s) = spheres_ s /\
  bodies_ (key_callback e s) = bodies_ s /\
  world_ (key_callback e s) = world_ s /\
  length (boxes_ (key_callback e s)) = length (boxes_ s).
Proof.
  unfold key_callback, remove_global_force, remove_global_torque,
    add_global_force, add_global_torque.
  repeat match goal with
         | |- context [(?a =? ?b)%Z] => destruct (a =? b)%Z
         end;
    cbn;
    repeat match goal with
           | |- context [match ?m !! ?k with _ => _ end] =>
               destruct (m !! k) eqn:?
           end;
    cbn; split_and!;
    first
      [ reflexivity
      | apply length_alter
      | intros Hne;
        first
          [ reflexivity
          | rewrite lookup_insert_ne by congruence; reflexivity
          | rewrite lookup_delete_ne by congruence; reflexivity ] ].
Qed.

(** A press of P registers ["P-force"] (replacing an earlier one) with
    components x and z between -1 and 1 and y = 0.5, for values of [rand()]
    between 0 and [RAND_MAX]; a press of T registers ["torque"] with x and z
    between -0.1 and 0.1 and y = 0.5. Nothing else of the registries or the
    boxes changes. *)
Theorem key_press_registers e s :
  (0 < RAND_MAX)%Z ->
  (0 <= rand1 e <= RAND_MAX)%Z ->
  (0 <= rand2 e <= RAND_MAX)%Z ->
  action e = GLFW_PRESS ->
  (key e = GLFW_KEY_P ->
   exists f,
     g_forces_ (key_callback e s) = <["P-force" := f]> (g_forces_ s) /\
     -1 <= vx f <= 1 /\ vy f = 0.5 /\ -1 <= vz f <= 1 /\
     g_torques_ (key_callback e s) = g_torques_ s /\
     boxes_ (key_callback e s) = boxes_ s) /\
  (key e = GLFW_KEY_T ->
   exists f,
     g_torques_ (key_callback e s) = <["torque" := f]> (g_torques_ s) /\
     -0.1 <= vx f <= 0.1 /\ vy f = 0.5 /\ -0.1 <= vz f <= 0.1 /\
     g_forces_ (key_callback e s) = g_forces_ s /\
     boxes_ (key_callback e s) = boxes_ s).
Proof.
  intros HM H1 H2 Ha. unfold key_callback. rewrite Ha. split; intros Hk;
    rewrite Hk; cbn.
  - destruct (get_rand_range (rand1 e) (-1) 1 HM H1) as (Hx & _); [lra|].
    destruct (get_rand_range (rand2 e) (-1) 1 HM H2) as (Hz & _); [lra|].
    eexists. split; [reflexivity|]. cbn. split_and!; try reflexivity; lra.
  - destruct (get_rand_range (rand1 e) (-0.1) 0.1 HM H1) as (Hx & _); [lra|].
    destruct (get_rand_range (rand2 e) (-0.1) 0.1 HM H2) as (Hz & _); [lra|].
    eexists. split; [reflexivity|]. cbn. split_and!; try reflexivity; lra.
Qed.

(** Holding a key: when no ["P-force"] is registered, a press of P followed
    by a release of P gives back the force registry, writes three lines on
    cout and nothing on cerr; a release of P without such a force writes the
    diagnostic and keeps the registry. The same for T and ["torque"]. *)
Theorem key_press_then_release (press release : KeyEvent) s :
  action press = GLFW_PRESS ->
  action release = GLFW_RELEASE ->
  (key press = GLFW_KEY_P -> key release = GLFW_KEY_P ->
   g_forces_ s !! "P-force" = None ->
   g_forces_ (key_callback release (key_callback press s)) = g_forces_ s /\
   g_forces_ (key_callback release s) = g_forces_ s /\
   (exists line1 line2 line3,
      log (key_callback release (key_callback press s))
      = log s ++ [EvCout line1; EvCout line2; EvCout line3]) /\
   log (key_callback release s)
   = log s ++ [EvCout [OutStr ("P release!!!" +:+ newline)];
               EvCerr [OutStr "No force named "; OutStr "P-force";
                       OutStr newline]]) /\
  (key press = GLFW_KEY_T -> key release = GLFW_KEY_T ->
   g_torques_ s !! "torque" = None ->
   g_torques_ (key_callback release (key_callback press s)) = g_torques_ s /\
   g_torques_ (key_callback release s) = g_torques_ s /\
   (exists line1 line2 line3,
      log (key_callback release (key_callback press s))
      = log s ++ [EvCout line1; EvCout line2; EvCout line3]) /\
   log (key_callback release s)
   = log s ++ [EvCout [OutStr ("T release!!!" +:+ newline)];
               EvCerr [OutStr "No torque named "; OutStr "torque";
                       OutStr newline]]).
Proof.
  intros Hp Hr. unfold key_callback. rewrite Hp, Hr.
  split; intros Hkp Hkr Hnone; rewrite Hkp, Hkr; cbn;
    unfold remove_global_force, remove_global_torque, add_global_force,
      add_global_torque; cbn;
    rewrite lookup_insert_eq, Hnone; cbn;
    rewrite delete_insert_id by assumption;
    (split_and!; [reflexivity|reflexivity| |now rewrite <- app_assoc]);
    do 3 eexists; rewrite <- !app_assoc; reflexivity.
Qed.

End InputProperties.

(** ** Further properties: integration *)

Lemma accumulate_mul_net (registry : gmap string vec3) (m : R) :
  accumulate_mul registry m = vmuls (net registry) m.
Proof.
  unfold accumulate_mul, net.
  induction (map_to_list registry) as [|f l IH] using rev_ind.
  - simpl. vec_crush.
  - rewrite !foldl_app. simpl. rewrite IH.
    generalize (foldl (fun acc f0 => vadd acc f0.2) vec3_zero l).
    destruct f as [k v]. cbn. vec_crush.
Qed.

Lemma integrate_sphere_init (h damping : R) (forces : gmap string vec3)
    (idx : nat) (sphere : Sphere) (st : Statics) :
  integrate_init (integrate_sphere h damping forces idx sphere st).1.2
  = integrate_init st.
Proof.
  unfold integrate_sphere. destruct (bool_decide _); reflexivity.
Qed.

Lemma integrate_spheres_from_init (h damping : R)
    (forces : gmap string vec3) (spheres : list Sphere) :
  forall (idx : nat) (st : Statics),
    integrate_init
      (integrate_spheres_from h damping forces idx spheres st).1.2
    = integrate_init st.
Proof.
  induction spheres as [|sphere rest IH]; intros idx st; [reflexivity|].
  cbn [integrate_spheres_from].
  pose proof (integrate_sphere_init h damping forces idx sphere st) as H1.
  destruct (integrate_sphere h damping forces idx sphere st)
    as [[sphere' st1] out1].
  specialize (IH (S idx) st1).
  destruct (integrate_spheres_from h damping forces (S idx) rest st1)
    as [[rest' st2] out2].
  cbn in *. congruence.
Qed.

Section IntegrationProperties.
Context {Solver : Type}.
Implicit Types (s : Simulator Solver) (h : R).

(** What [integrate_spheres] leaves alone. *)
Lemma integrate_spheres_rest h s :
  boxes_ (integrate_spheres h s) = boxes_ s /\
  damping_ (integrate_spheres h s) = damping_ s /\
  g_forces_ (integrate_spheres h s) = g_forces_ s /\
  g_torques_ (integrate_spheres h s) = g_torques_ s /\
  last_time_ (integrate_spheres h s) = last_time_ s /\
  bodies_ (integrate_spheres h s) = bodies_ s /\
  world_ (integrate_spheres h s) = world_ s /\
  integrate_init (statics (integrate_spheres h s))
  = integrate_init (statics s).
Proof.
  unfold integrate_spheres.
  pose proof (integrate_spheres_from_init h (damping_ s) (g_forces_ s)
                (spheres_ s) 0 (statics s)) as Hinit.
  destruct (integrate_spheres_from _ _ _ _ _ _) as [[spheres st] out].
  now cbn in *.
Qed.

(** [integrate] with a zero step: the spheres of [s0] stepped by 0 and the
    boxes stepped by 0. *)
Lemma zero_step_spheres (damping : R) (forces : gmap string vec3)
    (spheres : list Sphere) :
  Forall2 (fun sp sp' => sphere_pos sp' = sphere_pos sp /\
                         sphere_vel sp' = sphere_vel sp /\
                         sphere_mass sp' = sphere_mass sp /\
                         colliders_ sp' = [])
          spheres (particle_update_spec 0 damping forces <$> spheres).
Proof.
  apply Forall2_fmap_r, Forall_Forall2_diag, Forall_true.
  intros sp. unfold particle_update_spec; cbn. split_and!; try reflexivity.
  - generalize (sphere_pos sp). intros p.
    match goal with |- vadd p (smulv 0 ?v) = p => generalize v end.
    vec_crush.
  - generalize (sphere_vel sp). intros v.
    match goal with |- vadd v (smulv 0 ?a) = v => generalize a end.
    vec_crush.
Qed.

Lemma zero_step_boxes (damping : R) (forces torques : gmap string vec3)
    (boxes : list Box) :
  Forall2 (fun b b' => center b' = center b /\ P b' = P b /\ L b' = L b /\
                       inv_mass b' = inv_mass b)
          boxes (integrate_box 0 damping forces torques <$> boxes).
Proof.
  apply Forall2_fmap_r, Forall_Forall2_diag, Forall_true.
  intros b. unfold integrate_box; cbn. split_and!; try reflexivity.
  - generalize (center b) (vel b). vec_crush.
  - generalize (P b). intros p.
    match goal with |- vadd p (smulv 0 ?v) = p => generalize v end.
    vec_crush.
  - generalize (L b). intros l.
    match goal with
    | |- vadd l (vmuls (vmuls ?v 0) ?k) = l => generalize v, k
    end.
    vec_crush.
Qed.

(** The first call of [integrate] (and any call at the time of the previous
    one) is a step of size 0: it records the time and clears the first-call
    flag, but no particle changes position or velocity and no box changes
    center or momenta. *)
Theorem integrate_first_call_stands_still (curr_time : R) s :
  integrate_init (statics s) = true \/ last_time_ s = curr_time ->
  integrate_init (statics (integrate curr_time s)) = false /\
  last_time_ (integrate curr_time s) = curr_time /\
  Forall2 (fun sp sp' => sphere_pos sp' = sphere_pos sp /\
                         sphere_vel sp' = sphere_vel sp /\
                         sphere_mass sp' = sphere_mass sp /\
                         colliders_ sp' = [])
          (spheres_ s) (spheres_ (integrate curr_time s)) /\
  Forall2 (fun b b' => center b' = center b /\ P b' = P b /\ L b' = L b /\
                       inv_mass b' = inv_mass b)
          (boxes_ s) (boxes_ (integrate curr_time s)).
Proof.
  intros Hzero. unfold integrate.
  set (s0 := set_last_time _ _).
  assert (Hh : base_h_ s0 * 133.33
               * (curr_time - (if integrate_init (statics s) then curr_time
                               else last_time_ s)) = 0).
  { destruct Hzero as [-> | <-]; [|destruct (integrate_init _)]; ring. }
  rewrite Hh. clear Hh.
  destruct (integrate_spheres_rest 0 s0)
    as (Hb & Hd & Hf & Ht & Hl & _ & _ & Hi).
  split_and!.
  - change (integrate_init (statics (integrate_spheres 0 s0)) = false).
    now rewrite Hi.
  - change (last_time_ (integrate_spheres 0 s0) = curr_time).
    now rewrite Hl.
  - change (Forall2
              (fun sp sp' => sphere_pos sp' = sphere_pos sp /\
                             sphere_vel sp' = sphere_vel sp /\
                             sphere_mass sp' = sphere_mass sp /\
                             colliders_ sp' = [])
              (spheres_ s0) (spheres_ (integrate_spheres 0 s0))).
    rewrite spheres_integrate_spheres. apply zero_step_spheres.
  - rewrite boxes_integrate_boxes, Hb. apply zero_step_boxes.
Qed.

(** A box that can move (inverse mass above 0.0001) gains momentum
    [h * (sum of the forces - damping * velocity)], whatever its mass; its
    new velocity is the new momentum times the inverse mass; its center is
    advanced by [h] times the velocity it had before the step. *)
Theorem mobile_box_momentum h s (i : nat) (box : Box) :
  boxes_ s !! i = Some box ->
  0.0001 < inv_mass box ->
  exists box',
    boxes_ (integrate_boxes h s) !! i = Some box' /\
    P box' = vadd (P box)
               (smulv h (vsub (net (g_forces_ s))
                              (smulv (damping_ s) (vel box)))) /\
    vel box' = vmuls (P box') (inv_mass box) /\
    center box' = vadd (center box) (smulv h (vel box)).
Proof.
  intros Hi Hm. eexists. split.
  - rewrite boxes_integrate_boxes, list_lookup_fmap, Hi. reflexivity.
  - unfold integrate_box; cbn. split_and!; try reflexivity.
    destruct (Rgt_dec (inv_mass box) 0.0001) as [_|Hn]; [|lra].
    rewrite accumulate_mul_net. f_equal. f_equal.
    generalize (net (g_forces_ s)) (vel box) (damping_ s) (inv_mass box) Hm.
    intros n v d m Hm'. destruct n, v.
    cbv [vadd vsub smulv vmuls vdivs vx vy vz]. f_equal; field; lra.
Qed.

(** The angular momentum of a box grows by the sum of the torques times the
    inverse mass, times [h / (1 + damping)]: the damping scales the
    increment, not the momentum, so without a torque the angular momentum
    of every box stays as it is. The angular velocity is the world inverse
    inertia times the new angular momentum. *)
Theorem box_angular_momentum h s (i : nat) (box : Box) :
  boxes_ s !! i = Some box ->
  exists box',
    boxes_ (integrate_boxes h s) !! i = Some box' /\
    L box' = vadd (L box)
               (vmuls (vmuls (vmuls (net (g_torques_ s)) (inv_mass box)) h)
                      (1 / (1 + damping_ s))) /\
    angular_vel box' = mmulv (IInv box') (L box') /\
    (net (g_torques_ s) = vec3_zero -> L box' = L box).
Proof.
  intros Hi. eexists. split.
  - rewrite boxes_integrate_boxes, list_lookup_fmap, Hi. reflexivity.
  - unfold integrate_box; cbn. rewrite accumulate_mul_net.
    split_and!; try reflexivity.
    intros ->. generalize (L box) (inv_mass box) (1 / (1 + damping_ s)).
    vec_crush.
Qed.

(** What [integrate] never changes: the number of particles and of boxes,
    the mass of a particle, the inverse mass, dimensions, colour and body
    inverse inertia of a box, the registries, [bodies_] and the set of live
    bodies of the world. The contact partners of every particle are
    cleared. *)
Theorem integrate_keeps (curr_time : R) s :
  Forall2 (fun sp sp' => sphere_mass sp' = sphere_mass sp /\
                         colliders_ sp' = [])
          (spheres_ s) (spheres_ (integrate curr_time s)) /\
  Forall2 (fun b b' => inv_mass b' = inv_mass b /\ dims b' = dims b /\
                       color b' = color b /\ IBodyInv b' = IBodyInv b)
          (boxes_ s) (boxes_ (integrate curr_time s)) /\
  g_forces_ (integrate curr_time s) = g_forces_ s /\
  g_torques_ (integrate curr_time s) = g_torques_ s /\
  bodies_ (integrate curr_time s) = bodies_ s /\
  dom (world_bodies (world_ (integrate curr_time s)))
  = dom (world_bodies (world_ s)).
Proof.
  unfold integrate.
  set (s0 := set_last_time _ _).
  generalize (base_h_ s0 * 133.33
              * (curr_time - (if integrate_init (statics s) then curr_time
                              else last_time_ s))).
  intros h.
  destruct (integrate_spheres_rest h s0)
    as (Hb & Hd & Hf & Ht & Hl & Hbd & Hw & Hi).
  split_and!.
  - change (Forall2
              (fun sp sp' => sphere_mass sp' = sphere_mass sp /\
                             colliders_ sp' = [])
              (spheres_ s0) (spheres_ (integrate_spheres h s0))).
    rewrite spheres_integrate_spheres.
    apply Forall2_fmap_r, Forall_Forall2_diag, Forall_true. now intros sp.
  - rewrite boxes_integrate_boxes, Hb.
    apply Forall2_fmap_r, Forall_Forall2_diag, Forall_true. now intros b.
  - change (g_forces_ (integrate_spheres h s0) = g_forces_ s0).
    exact Hf.
  - change (g_torques_ (integrate_spheres h s0) = g_torques_ s0).
    exact Ht.
  - change (bodies_ (integrate_spheres h s0) = bodies_ s0).
    exact Hbd.
  - unfold integrate_boxes. cbn [world_ emit set_world].
    rewrite push_transform_dom. cbn [world_ emit set_boxes]. now rewrite Hw.
Qed.

End IntegrationProperties.

(** ** Further properties: the diagnostics of [integrate_spheres] *)

Lemma size_t_succ_not_both (n : N) :
  (n mod 100 = 0)%N -> (size_t_succ n mod 100 = 0)%N -> False.
Proof.
  unfold size_t_succ. intros H1 H2.
  pose proof (N.Div0.div_mod n 100) as E1.
  pose proof (N.Div0.div_mod (n + 1) (2 ^ 64)) as E2.
  pose proof (N.Div0.div_mod ((n + 1) mod 2 ^ 64) 100) as E3.
  rewrite H1 in E1. rewrite H2 in E3.
  change (2 ^ 64)%N with 18446744073709551616%N in *.
  lia.
Qed.

(** One particle: the latch, and what is written. *)
Lemma integrate_sphere_diag (h damping : R) (forces : gmap string vec3)
    (idx : nat) (sphere : Sphere) (st : Statics) :
  let r := integrate_sphere h damping forces idx sphere st in
  lowSphere r.1.2
  = match lowSphere st with
    | Some l => Some l
    | None =>
        if Rlt_dec (vy (sphere_pos sphere)) (-2.5) then Some idx else None
    end /\
  (lowSphere r.1.2 <> Some idx -> r.2 = [] /\ cnt r.1.2 = cnt st) /\
  (length r.2 <= 1)%nat /\
  integrate_init r.1.2 = integrate_init st.
Proof.
  cbn zeta. unfold integrate_sphere.
  set (low := match lowSphere st with
              | Some l => Some l
              | None => _
              end).
  destruct (bool_decide (low = Some idx)) eqn:Hlow; cbn.
  - apply bool_decide_eq_true in Hlow.
    split_and!; [reflexivity|congruence| |reflexivity].
    destruct (cnt st mod 100 =? 0)%N eqn:H1;
      destruct (size_t_succ (cnt st) mod 100 =? 0)%N eqn:H2; cbn; try lia.
    apply N.eqb_eq in H1, H2. destruct (size_t_succ_not_both _ H1 H2).
  - split_and!; [reflexivity|auto|lia|reflexivity].
Qed.

Lemma integrate_spheres_from_diag (h damping : R)
    (forces : gmap string vec3) (spheres : list Sphere) :
  forall (idx : nat) (st : Statics),
    let r := integrate_spheres_from h damping forces idx spheres st in
    (* the latch holds *)
    (forall l, lowSphere st = Some l -> lowSphere r.1.2 = Some l) /\
    (* a latch on an earlier particle: nothing happens *)
    (forall l, lowSphere st = Some l -> (l < idx)%nat ->
               r.2 = [] /\ r.1.2 = st) /\
    (* no latch, no particle below: nothing happens *)
    (lowSphere st = None ->
     Forall (fun sp => -2.5 <= vy (sphere_pos sp)) spheres ->
     r.2 = [] /\ r.1.2 = st) /\
    (* no latch: the first particle below is latched *)
    (forall i sp,
        lowSphere st = None ->
        spheres !! i = Some sp -> vy (sphere_pos sp) < -2.5 ->
        (forall j sp', (j < i)%nat -> spheres !! j = Some sp' ->
                       -2.5 <= vy (sphere_pos sp')) ->
        lowSphere r.1.2 = Some (idx + i)%nat) /\
    (* at most one line in one call *)
    (length r.2 <= 1)%nat.
Proof.
  induction spheres as [|sphere rest IH]; intros idx st; cbn zeta.
  { cbn. split_and!; auto. intros i sp _ Hi. discriminate. }
  cbn [integrate_spheres_from].
  pose proof (integrate_sphere_diag h damping forces idx sphere st) as Hd.
  cbn zeta in Hd.
  destruct (integrate_sphere h damping forces idx sphere st)
    as [[sphere' st1] out1].
  specialize (IH (S idx) st1). cbn zeta in IH.
  destruct (integrate_spheres_from h damping forces (S idx) rest st1)
    as [[rest' st2] out2].
  cbn [fst snd] in *.
  destruct Hd as (Hlow & Hquiet & Hlen & Hinit).
  destruct IH as (IHlatch & IHearlier & IHnone & IHfirst & IHlen).
  assert (Hsame : lowSphere st1 <> Some idx -> out1 = [] /\ st1 = st).
  { intros Hne. destruct (Hquiet Hne) as (-> & Hcnt). split; [reflexivity|].
    assert (Hl : lowSphere st1 = lowSphere st).
    { rewrite Hlow. destruct (lowSphere st) as [l|]; [reflexivity|].
      destruct (Rlt_dec _ _); [|reflexivity]. now rewrite Hlow in Hne. }
    destruct st as [i0 l0 c0], st1 as [i1 l1 c1]. cbn in *. congruence. }
  split_and!.
  - intros l Hl. apply IHlatch. now rewrite Hlow, Hl.
  - intros l Hl Hlt.
    assert (Hl1 : lowSphere st1 = Some l) by now rewrite Hlow, Hl.
    destruct Hsame as (-> & ->); [rewrite Hl1; intros [= ->]; lia|].
    destruct (IHearlier l Hl) as (-> & ->); [lia|]. now split.
  - intros Hnone Hall. inversion Hall as [|? ? Hsp Hrest]; subst.
    assert (Hl1 : lowSphere st1 = None).
    { rewrite Hlow, Hnone. destruct (Rlt_dec _ _); [lra|reflexivity]. }
    destruct Hsame as (-> & ->); [now rewrite Hl1|].
    now apply IHnone.
  - intros i sp Hnone Hi Hbelow Hfirst.
    destruct i as [|i]; cbn in Hi.
    + injection Hi as ->. rewrite Nat.add_0_r. apply IHlatch.
      rewrite Hlow, Hnone. destruct (Rlt_dec _ _); [reflexivity|lra].
    + assert (Hsp : -2.5 <= vy (sphere_pos sphere))
        by (apply (Hfirst 0%nat); [lia|reflexivity]).
      assert (Hl1 : lowSphere st1 = None).
      { rewrite Hlow, Hnone. destruct (Rlt_dec _ _); [lra|reflexivity]. }
      replace (idx + S i)%nat with (S idx + i)%nat by lia.
      apply (IHfirst i sp Hl1 Hi Hbelow).
      intros j sp' Hj Hsp'. apply (Hfirst (S j)); [lia|exact Hsp'].
  - rewrite length_app.
    destruct (decide (lowSphere st1 = Some idx)) as [Heq|Hne].
    + destruct (IHearlier idx Heq) as (-> & _); [lia|]. cbn. lia.
    + destruct (Hsame Hne) as (-> & _). cbn. lia.
Qed.

Section DiagnosticsProperties.
Context {Solver : Type}.
Implicit Types (s : Simulator Solver) (h : R).

(** The particle watched by the diagnostics: once a particle is latched it
    stays latched; while none is latched and no particle is below y = -2.5
    before the step, [integrate_spheres] writes nothing and keeps its
    statics; the first particle (in the order of [spheres_]) found below
    y = -2.5 before its update is the one latched. *)
Theorem low_sphere_latch h s :
  (forall l, lowSphere (statics s) = Some l ->
             lowSphere (statics (integrate_spheres h s)) = Some l) /\
  (lowSphere (statics s) = None ->
   Forall (fun sp => -2.5 <= vy (sphere_pos sp)) (spheres_ s) ->
   statics (integrate_spheres h s) = statics s /\
   log (integrate_spheres h s) = log s ++ [EvIntegrateSpheres]) /\
  (forall i sp,
      lowSphere (statics s) = None ->
      spheres_ s !! i = Some sp -> vy (sphere_pos sp) < -2.5 ->
      (forall j sp', (j < i)%nat -> spheres_ s !! j = Some sp' ->
                     -2.5 <= vy (sphere_pos sp')) ->
      lowSphere (statics (integrate_spheres h s)) = Some i).
Proof.
  unfold integrate_spheres.
  pose proof (integrate_spheres_from_diag h (damping_ s) (g_forces_ s)
                (spheres_ s) 0 (statics s)) as Hd.
  cbn zeta in Hd.
  destruct (integrate_spheres_from _ _ _ _ _ _) as [[spheres st] out].
  cbn [fst snd] in Hd. destruct Hd as (Hlatch & _ & Hnone & Hfirst & _).
  cbn. split_and!.
  - exact Hlatch.
  - intros Hn Hall. destruct (Hnone Hn Hall) as (-> & ->).
    now rewrite app_nil_r.
  - intros i sp Hn Hi Hbelow Hfst. exact (Hfirst i sp Hn Hi Hbelow Hfst).
Qed.

(** One call of [integrate_spheres] writes at most one line: the line with
    the position before the update and the line with the position after it
    are never written by the same call, because the counter is advanced
    between the two tests of [cnt % 100 == 0]. *)
Theorem integrate_spheres_one_line h s :
  exists out,
    log (integrate_spheres h s) = log s ++ EvIntegrateSpheres :: out /\
    (length out <= 1)%nat /\
    Forall (fun e => is_output e = true) out.
Proof.
  unfold integrate_spheres.
  pose proof (integrate_spheres_from_diag h (damping_ s) (g_forces_ s)
                (spheres_ s) 0 (statics s)) as Hd.
  pose proof (integrate_spheres_from_output h (damping_ s) (g_forces_ s)
                (spheres_ s) 0 (statics s)) as Ho.
  cbn zeta in Hd.
  destruct (integrate_spheres_from _ _ _ _ _ _) as [[spheres st] out].
  cbn [fst snd] in Hd, Ho. destruct Hd as (_ & _ & _ & _ & Hlen).
  exists out. cbn. rewrite <- app_assoc. now split_and!.
Qed.

End DiagnosticsProperties.

(** ** Further properties: the collision bodies *)

Lemma getUserData_push_transform (boxes : list Box) (w : PhysicsWorld)
    (entry : nat * nat) (body : nat) :
  getUserData body (push_transform boxes w entry) = getUserData body w.
Proof.
  unfold push_transform.
  destruct (getUserData entry.2 w) as [i|]; [|reflexivity].
  destruct (boxes !! i) as [box|]; [|reflexivity].
  unfold getUserData, setTransform; cbn.
  destruct (decide (entry.2 = body)) as [->|Hne].
  - rewrite lookup_alter_eq. now destruct (world_bodies w !! body).
  - now rewrite lookup_alter_ne.
Qed.

Lemma push_transform_fold_sync (boxes : list Box) (body j : nat) (bx : Box)
    (entries : list (nat * nat)) :
  boxes !! j = Some bx ->
  forall w,
    getUserData body w = Some j ->
    body ∈ entries.*2 \/
    world_bodies w !! body = Some (mkBody (box_transform bx) (Some j)) ->
    world_bodies (foldl (push_transform boxes) w entries) !! body
    = Some (mkBody (box_transform bx) (Some j)).
Proof.
  intros Hbx.
  induction entries as [|entry entries IH]; intros w Hud Hor; cbn [foldl].
  - destruct Hor as [Hin|Hsync]; [|exact Hsync].
    now apply elem_of_nil in Hin.
  - apply IH; [now rewrite getUserData_push_transform|].
    destruct (decide (entry.2 = body)) as [Heq|Hne].
    + right. unfold push_transform. rewrite Heq, Hud, Hbx.
      unfold setTransform; cbn. rewrite lookup_alter_eq.
      unfold getUserData in Hud.
      destruct (world_bodies w !! body) as [b0|]; [|discriminate].
      cbn. now rewrite Hud.
    + destruct Hor as [Hin|Hsync].
      * left. cbn in Hin. apply elem_of_cons in Hin.
        destruct Hin as [Heq|Hin]; [congruence|exact Hin].
      * right. unfold push_transform.
        destruct (getUserData entry.2 w) as [i|]; [|exact Hsync].
        destruct (boxes !! i) as [box|]; [|exact Hsync].
        unfold setTransform; cbn. now rewrite lookup_alter_ne.
Qed.

Section BodyProperties.
Context {Solver : Type}.
Implicit Types (s : Simulator Solver) (h : R).

Lemma register_body_upto (s0 : Simulator Solver) (j : nat) s :
  (j < length (boxes_ s0))%nat ->
  registered_upto s0 j s -> registered_upto s0 (S j) (register_body s j).
Proof.
  intros Hj (Hb & Hsp & Hf & Ht & Hn & Hlog & Hlow & Hhigh).
  destruct (lookup_lt_is_Some_2 _ _ Hj) as (box & Hbox).
  unfold register_body. rewrite Hb, Hbox.
  destruct (Hhigh j (le_n j)) as (Hbj & Hwj).
  cbn -[seq]. rewrite Hbj, Hn. unfold registered_upto. cbn -[seq].
  split_and!; try assumption.
  - reflexivity.
  - rewrite Hlog, seq_S, fmap_app, <- app_assoc. reflexivity.
  - intros i bx Hi Hbx.
    destruct (decide (i = j)) as [->|Hne].
    + rewrite lookup_insert_eq, lookup_alter_eq, lookup_insert_eq. cbn.
      split; [reflexivity|]. congruence.
    + rewrite lookup_insert_ne, lookup_alter_ne, lookup_insert_ne by lia.
      apply Hlow; [lia|exact Hbx].
  - intros i Hi.
    rewrite lookup_insert_ne, lookup_alter_ne, lookup_insert_ne by lia.
    apply Hhigh. lia.
Qed.

Lemma register_bodies_upto (s0 : Simulator Solver) (m : nat) :
  forall (j : nat) s,
    (j + m <= length (boxes_ s0))%nat ->
    registered_upto s0 j s ->
    registered_upto s0 (j + m) (foldl register_body s (seq j m)).
Proof.
  induction m as [|m IH]; intros j s Hjm Hinv; cbn [seq foldl].
  - now rewrite Nat.add_0_r.
  - replace (j + S m)%nat with (S j + m)%nat by lia.
    apply IH; [lia|]. apply register_body_upto; [lia|exact Hinv].
Qed.

Lemma init_registered (spheres_n : N) (solver0 : Solver) (last_time0 : R)
    (spheres : list Sphere) (boxes : list Box)
    (floor ceiling back front right left : Box) :
  let all := boxes ++ [floor; ceiling; back; front; right; left] in
  registered_upto
    (set_boxes all
       (set_spheres spheres
          (add_global_force "gravity" GRAVITY
             (Simulator_ctor spheres_n solver0 last_time0))))
    (length all)
    (init spheres boxes floor ceiling back front right left
          (Simulator_ctor spheres_n solver0 last_time0)).
Proof.
  cbn zeta. unfold init. cbn [spheres_ boxes_ app add_global_force
    Simulator_ctor set_g_forces set_spheres set_boxes].
  match goal with
  | |- registered_upto ?s0 ?n (foldl register_body ?s1 (seq 0 ?m)) =>
      apply (register_bodies_upto s0 m 0 s1)
  end.
  - cbn. lia.
  - unfold registered_upto. cbn.
    split_and!; try reflexivity.
    + intros i box Hi. lia.
    + intros i _. split; apply lookup_empty.
Qed.

(** After the constructor and [init]: gravity is the one registered force,
    the boxes are the mobile boxes followed by floor, ceiling, back, front,
    right and left, and box [i] has the collision body [i], which carries
    the index and the transform of that box; there are no other bodies, and
    the log is the creation of the bodies in the order of the boxes. *)
Theorem init_registers_every_box (spheres_n : N) (solver0 : Solver)
    (last_time0 : R) (spheres : list Sphere) (boxes : list Box)
    (floor ceiling back front right left : Box) :
  let s := init spheres boxes floor ceiling back front right left
                (Simulator_ctor spheres_n solver0 last_time0) in
  g_forces_ s = {["gravity" := GRAVITY]} /\
  g_torques_ s = ∅ /\
  spheres_ s = spheres /\
  boxes_ s = boxes ++ [floor; ceiling; back; front; right; left] /\
  log s = EvCreateBody <$> seq 0 (length boxes + 6) /\
  (forall i box, boxes_ s !! i = Some box ->
     bodies_ s !! i = Some i /\
     world_bodies (world_ s) !! i
     = Some (mkBody (box_transform box) (Some i))) /\
  (forall i, (length boxes + 6 <= i)%nat ->
     bodies_ s !! i = None /\ world_bodies (world_ s) !! i = None).
Proof.
  cbn zeta.
  pose proof (init_registered spheres_n solver0 last_time0 spheres boxes
                floor ceiling back front right left) as Hreg.
  cbn zeta in Hreg. revert Hreg.
  generalize (init spheres boxes floor ceiling back front right left
                   (Simulator_ctor spheres_n solver0 last_time0)).
  intros s (Hb & Hsp & Hf & Ht & Hn & Hlog & Hlow & Hhigh).
  cbn in Hb, Hsp, Hf, Ht, Hlog, Hlow, Hhigh.
  rewrite length_app in *. cbn [length] in *.
  split_and!.
  - rewrite Hf. apply insert_empty.
  - exact Ht.
  - exact Hsp.
  - exact Hb.
  - exact Hlog.
  - intros i box Hi. rewrite Hb in Hi. apply Hlow; [|exact Hi].
    apply lookup_lt_Some in Hi. rewrite length_app in Hi. cbn in Hi. lia.
  - exact Hhigh.
Qed.

(** [integrate_boxes] brings the collision world up to date: a body of
    [bodies_] whose user data is the index of a box ends with the transform
    (center and orientation) of that box after the step, and keeps its user
    data. *)
Theorem integrate_boxes_syncs_world h s (i body j : nat) (box : Box) :
  bodies_ s !! i = Some body ->
  getUserData body (world_ s) = Some j ->
  boxes_ s !! j = Some box ->
  exists box',
    boxes_ (integrate_boxes h s) !! j = Some box' /\
    world_bodies (world_ (integrate_boxes h s)) !! body
    = Some (mkBody (mkTransform (center box') (orientation box')) (Some j)).
Proof.
  intros Hi Hud Hbox.
  exists (integrate_box h (damping_ s) (g_forces_ s) (g_torques_ s) box).
  split.
  - rewrite boxes_integrate_boxes, list_lookup_fmap, Hbox. reflexivity.
  - unfold integrate_boxes. cbn [world_ emit set_world bodies_ set_boxes].
    rewrite (push_transform_fold_sync _ body j
               (integrate_box h (damping_ s) (g_forces_ s) (g_torques_ s) box)).
    + unfold box_transform. now destruct (center _), (orientation _).
    + rewrite list_lookup_fmap, Hbox. reflexivity.
    + exact Hud.
    + left. apply list_elem_of_fmap. exists (i, body). split; [reflexivity|].
      now apply elem_of_map_to_list.
Qed.

End BodyProperties.

(** ** Further properties: the report of [handle_collisions] *)

Section ReportProperties.
Context {Solver : Type} {ext : Externals Solver}.
Implicit Types (s : Simulator Solver) (c : Z) (fuel : nat).

(** The loop itself writes nothing, and its counter advances by the number
    of passes. *)
Lemma solver_loop_silent fuel :
  forall c s c' s',
    solver_loop fuel c s = Some (c', s') ->
    (c <= c')%Z /\
    exists tr, log s' = log s ++ tr /\
               Forall (fun e => is_output e = false) tr /\
               Z.of_nat (passes tr) = (c' - c)%Z.
Proof.
  induction fuel as [|fuel IH]; intros c s c' s' Hrun; [discriminate|].
  cbn [solver_loop] in Hrun.
  destruct (c =? 30)%Z.
  { injection Hrun as <- <-. split; [lia|].
    exists []. rewrite app_nil_r. split_and!; [reflexivity|constructor|].
    cbn. lia. }
  cbn in Hrun.
  destruct (impulse_testCollision _ _) as [sv bs]. cbn in Hrun.
  destruct (impulse_has_contacts sv) eqn:Hhas.
  - destruct (impulse_solve (sv, bs)) as [sv' bs']. cbn in Hrun.
    destruct (impulse_had_collisions sv').
    + apply IH in Hrun. destruct Hrun as (Hcc & tr & Hlog & Hout & Hp).
      cbn in Hlog. split; [lia|].
      exists (pass_round ++ tr). rewrite Hlog, <- !app_assoc.
      split_and!; [reflexivity|repeat constructor; assumption|].
      rewrite passes_app. cbn. lia.
    + injection Hrun as <- <-. cbn. split; [lia|].
      exists pass_round. rewrite <- !app_assoc.
      split_and!; [reflexivity|repeat constructor|]. cbn. lia.
  - cbn in Hrun.
    destruct (impulse_had_collisions sv).
    + apply IH in Hrun. destruct Hrun as (Hcc & tr & Hlog & Hout & Hp).
      cbn in Hlog. split; [lia|].
      exists (quiet_round ++ tr). rewrite Hlog, <- !app_assoc.
      split_and!; [reflexivity|repeat constructor; assumption|].
      rewrite passes_app. cbn. lia.
    + injection Hrun as <- <-. cbn. split; [lia|].
      exists quiet_round. rewrite <- !app_assoc.
      split_and!; [reflexivity|repeat constructor|]. cbn. lia.
Qed.

(** The only line that [handle_collisions] writes is its last event,
    ["Solved after n iterations"], where [n] is the number of impulse passes
    applied in this call; when no pass was applied nothing is written. *)
Theorem solved_line_reports_passes fuel s s' :
  handle_collisions fuel s = Some s' ->
  exists tr,
    log s' = log s ++ EvSphereCollisions :: tr ++ solved_message (passes tr) /\
    Forall (fun e => is_output e = false) tr /\
    (passes tr = 0%nat -> log s' = log s ++ EvSphereCollisions :: tr).
Proof.
  intros Hrun. apply handle_collisions_unfold in Hrun.
  destruct Hrun as (c & s1 & Hloop & ->).
  destruct (solver_loop_silent _ _ _ _ _ Hloop) as (Hc & tr & Hlog & Hout & Hp).
  cbn in Hlog. exists tr.
  assert (Hcp : c = Z.of_nat (passes tr)) by lia.
  assert (Hfinal :
    log (if (0 <? c)%Z then
           emit [EvCout [OutStr "Solved after "; OutInt c;
                         OutStr (" iterations" +:+ newline)]] s1
         else s1)
    = log s ++ EvSphereCollisions :: tr ++ solved_message (passes tr)).
  { unfold solved_message. rewrite <- Hcp.
    destruct (0 <? c)%Z; cbn [log emit]; rewrite Hlog, <- !app_assoc.
    - reflexivity.
    - now rewrite app_nil_r. }
  split_and!; [exact Hfinal|exact Hout|].
  intros H0. rewrite Hfinal, H0. unfold solved_message. cbn.
  now rewrite app_nil_r.
Qed.

End ReportProperties.

(** ** Further properties: the entry point *)

(** [main] never builds a simulator without particles: the count is 3000
    unless there is exactly one argument and [atoi] reads a positive number
    from it, which is then the count. *)
Theorem main_spheres_n_positive (atoi : string -> Z) (argv : list string) :
  (0 < main_spheres_n atoi argv)%N /\
  (length argv <> 2%nat -> main_spheres_n atoi argv = 3000%N) /\
  (forall prog arg, argv = [prog; arg] ->
     main_spheres_n atoi argv
     = if (0 <? atoi arg)%Z then Z.to_N (atoi arg) else 3000%N).
Proof.
  unfold main_spheres_n. split_and!.
  - destruct (length argv =? 2)%nat; [|lia].
    destruct (argv !! 1%nat) as [arg|]; [|lia].
    destruct (Z.ltb_spec 0 (atoi arg)); lia.
  - intros Hlen. apply Nat.eqb_neq in Hlen. now rewrite Hlen.
  - intros prog arg ->. reflexivity.
Qed.

(** ** Further properties: the earlier box integrator *)

(** In the earlier variant of [integrate_boxes] forces change the velocity
    of a box but nothing moves it: after any number of steps, with any step
    sizes and registries, every box has the center, the mass and the body
    inverse inertia it started with. *)
Theorem earlier_boxes_never_move (dampening : R)
    (steps : list (R * gmap string vec3 * gmap string vec3))
    (boxes : list Earlier.Box) :
  Forall2 (fun b b' => Earlier.center b' = Earlier.center b /\
                       Earlier.mass b' = Earlier.mass b /\
                       Earlier.IBodyInv b' = Earlier.IBodyInv b)
          boxes
          (foldl (fun bs step =>
                    Earlier.integrate_boxes step.1.1 dampening step.1.2
                                            step.2 bs)
                 boxes steps).
Proof.
  revert boxes. induction steps as [|step steps IH]; intros boxes; cbn [foldl].
  - apply Forall_Forall2_diag, Forall_true. now intros b.
  - specialize (IH (Earlier.integrate_boxes step.1.1 dampening step.1.2
                                            step.2 boxes)).
    unfold Earlier.integrate_boxes in IH at 2.
    apply Forall2_fmap_l in IH.
    eapply Forall2_impl; [exact IH|].
    intros b b' (Hc & Hm & Hi). cbn in *. now split_and!.
Qed.

(** One step of the earlier variant: the velocity gains
    [h * (sum of the forces - dampening * velocity) / mass], and the new
    orientation has norm 1. *)
Theorem earlier_box_step (h dampening : R)
    (forces torques : gmap string vec3) (box : Earlier.Box) :
  Earlier.mass box <> 0 ->
  let box' := Earlier.integrate_box h dampening forces torques box in
  Earlier.vel box'
  = vadd (Earlier.vel box)
      (smulv h (vdivs (vsub (net forces)
                            (smulv dampening (Earlier.vel box)))
                      (Earlier.mass box))) /\
  qlength (Earlier.orientation box') = 1.
Proof.
  intros Hm. cbn zeta. unfold Earlier.integrate_box; cbn. split.
  - rewrite accumulate_div_net. f_equal. f_equal.
    generalize (net forces) (Earlier.vel box). intros n v. destruct n, v.
    cbv [vadd vsub smulv vdivs vx vy vz]. f_equal; field; assumption.
  - apply normalize_unit.
Qed.

(** ** Further properties: the world inverse inertia *)

(** The rotation matrix of a unit quaternion is orthogonal. *)
Lemma toMat3_isotropic (q : quat) (k : R) :
  qdot q q = 1 ->
  mmul (mmul (toMat3 q) (Mat3 k 0 0 0 k 0 0 0 k)) (transpose (toMat3 q))
  = Mat3 k 0 0 0 k 0 0 0 k.
Proof.
  destruct q as [w x y z]. unfold qdot; cbn. intros Hq.
  unfold mmul, toMat3, transpose; cbn. f_equal; nsatz.
Qed.

Lemma conjugate_symmetric (a b : mat3) :
  transpose b = b ->
  transpose (mmul (mmul a b) (transpose a)) = mmul (mmul a b) (transpose a).
Proof.
  destruct a, b. unfold transpose, mmul; cbn. intros Hb.
  injection Hb. intros. subst. f_equal; ring.
Qed.

(** The world inverse inertia that [integrate_boxes] stores: it is symmetric
    when the body inverse inertia is, and for a box with the same inverse
    inertia [k] about every axis (a cube) and a unit orientation it is the
    body inverse inertia itself, whatever the orientation. *)
Theorem world_inverse_inertia (h damping : R)
    (forces torques : gmap string vec3) (box : Box) :
  (transpose (IBodyInv box) = IBodyInv box ->
   transpose (IInv (integrate_box h damping forces torques box))
   = IInv (integrate_box h damping forces torques box)) /\
  (forall k : R,
      unit_orientation box ->
      IBodyInv box = Mat3 k 0 0 0 k 0 0 0 k ->
      IInv (integrate_box h damping forces torques box) = IBodyInv box).
Proof.
  unfold integrate_box; cbn [IInv]. split.
  - apply conjugate_symmetric.
  - intros k Hunit Hk. rewrite Hk.
    apply toMat3_isotropic, qdot_of_unit_length, Hunit.
Qed.

(** ** Further properties: a second initialisation *)

Section SecondInit.
Context {Solver : Type}.
Implicit Types (s : Simulator Solver).

(** Registering again, in a world whose next handle is [n + j], while body
    [n] is the one created for index 0. *)
Lemma register_body_again (B : list Box) (n j : nat) s :
  (j < length B)%nat ->
  boxes_ s = B /\
  world_next (world_ s) = (n + j)%nat /\
  (forall k b, bodies_ s !! k = Some b -> b <> n) /\
  is_Some (bodies_ s !! 0%nat) /\
  ((1 <= j)%nat -> n ∈ dom (world_bodies (world_ s))) ->
  boxes_ (register_body s j) = B /\
  world_next (world_ (register_body s j)) = (n + S j)%nat /\
  (forall k b, bodies_ (register_body s j) !! k = Some b -> b <> n) /\
  is_Some (bodies_ (register_body s j) !! 0%nat) /\
  ((1 <= S j)%nat -> n ∈ dom (world_bodies (world_ (register_body s j)))).
Proof.
  intros Hj (Hb & Hn & Hval & H0 & Hdom).
  destruct (lookup_lt_is_Some_2 _ _ Hj) as (box & Hbox).
  unfold register_body. rewrite Hb, Hbox. cbn. rewrite Hn.
  assert (Hlive : n ∈ dom (alter
                    (fun b => mkBody (body_transform b) (Some j)) (n + j)%nat
                    (<[(n + j)%nat := mkBody (box_transform box) None]>
                       (world_bodies (world_ s))))).
  { rewrite dom_alter_L, dom_insert_L, elem_of_union, elem_of_singleton.
    destruct j as [|j]; [left; lia|right; apply Hdom; lia]. }
  destruct (bodies_ s !! j) as [old|] eqn:Hold; cbn; split_and!;
    try assumption; try reflexivity; try lia; try (intros _; exact Hlive).
  - intros k b. destruct (decide (k = j)) as [->|Hne].
    + rewrite lookup_insert_eq. intros [= <-].
      destruct j as [|j]; [|lia].
      rewrite Hold in H0. now destruct H0.
    + rewrite lookup_insert_ne by congruence. apply Hval.
  - destruct (decide (j = 0%nat)) as [->|Hne].
    + rewrite Hold in H0. now destruct H0.
    + now rewrite lookup_insert_ne.
Qed.

Lemma register_bodies_again (B : list Box) (n m : nat) :
  forall (j : nat) s,
    (j + m <= length B)%nat ->
    boxes_ s = B /\
    world_next (world_ s) = (n + j)%nat /\
    (forall k b, bodies_ s !! k = Some b -> b <> n) /\
    is_Some (bodies_ s !! 0%nat) /\
    ((1 <= j)%nat -> n ∈ dom (world_bodies (world_ s))) ->
    let s' := foldl register_body s (seq j m) in
    (forall k b, bodies_ s' !! k = Some b -> b <> n) /\
    ((1 <= j + m)%nat -> n ∈ dom (world_bodies (world_ s'))).
Proof.
  induction m as [|m IH]; intros j s Hjm Hinv; cbn [seq foldl]; cbn zeta.
  - rewrite Nat.add_0_r. destruct Hinv as (_ & _ & Hval & _ & Hdom).
    now split.
  - replace (j + S m)%nat with (S j + m)%nat by lia.
    apply IH; [lia|]. apply register_body_again; [lia|exact Hinv].
Qed.

(** [init] is not made to be called twice: [emplace] keeps the body that
    [bodies_] already holds for an index, so the body that a second [init]
    creates for box 0 is in no entry of [bodies_], and the destructor, which
    destroys the bodies of [bodies_], leaves it live in the world that it
    destroys. *)
Theorem second_init_leaks_a_body (spheres_n : N) (solver0 : Solver)
    (last_time0 : R) (spheres spheres2 : list Sphere)
    (boxes boxes2 : list Box)
    (floor ceiling back front right left : Box)
    (floor2 ceiling2 back2 front2 right2 left2 : Box) :
  let s1 := init spheres boxes floor ceiling back front right left
                 (Simulator_ctor spheres_n solver0 last_time0) in
  let s2 := init spheres2 boxes2 floor2 ceiling2 back2 front2 right2 left2
                 s1 in
  let leaked := (length boxes + 6)%nat in
  Forall (fun entry => entry.2 <> leaked) (map_to_list (bodies_ s2)) /\
  leaked ∈ dom (world_bodies (world_ (Simulator_dtor s2))).
Proof.
  cbn zeta.
  pose proof (init_registered spheres_n solver0 last_time0 spheres boxes
                floor ceiling back front right left) as Hreg.
  cbn zeta in Hreg. revert Hreg.
  generalize (init spheres boxes floor ceiling back front right left
                   (Simulator_ctor spheres_n solver0 last_time0)).
  intros s1 (Hb & _ & _ & _ & Hn & _ & Hlow & Hhigh).
  cbn [boxes_ set_boxes] in Hb, Hlow.
  rewrite length_app in *. cbn [length] in *.
  set (n := (length boxes + 6)%nat) in *.
  assert (Hlen1 : length (boxes_ s1) = n)
    by (rewrite Hb, length_app; reflexivity).
  assert (Htracked : forall k b, bodies_ s1 !! k = Some b -> b = k /\ (k < n)%nat).
  { intros k b Hk. destruct (decide (k < n)%nat) as [Hlt|Hge].
    - destruct (lookup_lt_is_Some_2 (boxes_ s1) k) as (box & Hbox); [lia|].
      rewrite Hb in Hbox. destruct (Hlow k box Hlt Hbox) as (Hbk & _).
      split; [congruence|exact Hlt].
    - destruct (Hhigh k) as (Hbk & _); [lia|]. congruence. }
  assert (H0 : is_Some (bodies_ s1 !! 0%nat)).
  { destruct (lookup_lt_is_Some_2 (boxes_ s1) 0) as (box & Hbox);
      [subst n; lia|].
    rewrite Hb in Hbox. destruct (Hlow 0%nat box) as (Hb0 & _);
      [subst n; lia|exact Hbox|]. now rewrite Hb0. }
  unfold init at 1 2.
  cbn [spheres_ boxes_ add_global_force set_g_forces set_spheres set_boxes].
  match goal with
  | |- context [foldl register_body ?s0 (seq 0 ?m)] =>
      destruct (register_bodies_again (boxes_ s0) n m 0 s0)
        as (Hval & Hdom)
  end.
  - cbn. lia.
  - cbn. split_and!; try reflexivity.
    + rewrite Hn. lia.
    + intros k b Hk. destruct (Htracked k b Hk). lia.
    + exact H0.
    + intros Hle. lia.
  - cbn zeta in Hval, Hdom.
    assert (Hpos : (1 <= 0 + length ((boxes_ s1 ++ boxes2)
                      ++ [floor2; ceiling2; back2; front2; right2; left2]))%nat)
      by (rewrite length_app; cbn; lia).
    specialize (Hdom Hpos).
    revert Hval Hdom.
    match goal with
    | |- context [foldl register_body ?s0 ?l] =>
        generalize (foldl register_body s0 l)
    end.
    intros s2 Hval Hdom. split.
    + apply Forall_forall. intros [k b] Hin. cbn.
      apply elem_of_map_to_list in Hin. exact (Hval k b Hin).
    + destruct (dtor_effect s2) as (_ & Hdd). rewrite Hdd.
      apply elem_of_difference. split; [exact Hdom|].
      rewrite elem_of_list_to_set, list_elem_of_fmap.
      intros ([k b] & Heq & Hin). cbn in Heq. subst b.
      apply elem_of_map_to_list in Hin. exact (Hval k n Hin eq_refl).
Qed.

End SecondInit.

(** ** Concrete runs of the further properties *)

Lemma get_rand_bounds_witness :
  -1 <= get_rand (ext := quiet_externals) 5 (-1) 1 <= 1 /\
  get_rand (ext := quiet_externals) 0 (-1) 1 = -1 /\
  get_rand (ext := quiet_externals) (RAND_MAX (Externals := quiet_externals))
           (-1) 1 = 1.
Proof.
  apply (get_rand_bounds (ext := quiet_externals) 5 (-1) 1).
  - reflexivity.
  - cbn. lia.
  - lra.
Defined.

Lemma key_callback_ignored_witness :
  let s := sample_simulator tt {["gravity" := GRAVITY]} [] in
  key_callback (ext := quiet_externals) (mkKeyEvent 65 0 GLFW_PRESS 0 0 0) s
  = s.
Proof.
  cbn zeta. apply (key_callback_ignored (ext := quiet_externals)).
  left. cbn. unfold GLFW_KEY_P, GLFW_KEY_T, GLFW_KEY_R, GLFW_KEY_E. lia.
Defined.

Lemma key_callback_scope_witness :
  let s := sample_simulator tt {["gravity" := GRAVITY]} [] in
  let e := mkKeyEvent GLFW_KEY_P 0 GLFW_RELEASE 0 0 0 in
  g_forces_ (key_callback (ext := quiet_externals) e s) !! "gravity"
  = g_forces_ s !! "gravity".
Proof.
  cbn zeta.
  apply (key_callback_scope (ext := quiet_externals)
           (mkKeyEvent GLFW_KEY_P 0 GLFW_RELEASE 0 0 0)
           (sample_simulator tt {["gravity" := GRAVITY]} []) "gravity").
  discriminate.
Defined.

Lemma key_press_registers_witness :
  let s := sample_simulator tt {["gravity" := GRAVITY]} [] in
  let e := mkKeyEvent GLFW_KEY_P 0 GLFW_PRESS 0 0 2147483647 in
  exists f,
    g_forces_ (key_callback (ext := quiet_externals) e s)
    = <["P-force" := f]> (g_forces_ s) /\
    -1 <= vx f <= 1 /\ vy f = 0.5 /\ -1 <= vz f <= 1 /\
    g_torques_ (key_callback (ext := quiet_externals) e s) = g_torques_ s /\
    boxes_ (key_callback (ext := quiet_externals) e s) = boxes_ s.
Proof.
  cbn zeta.
  apply (key_press_registers (ext := quiet_externals)
           (mkKeyEvent GLFW_KEY_P 0 GLFW_PRESS 0 0 2147483647)).
  - reflexivity.
  - cbn. lia.
  - cbn. lia.
  - reflexivity.
  - reflexivity.
Defined.

Lemma key_press_then_release_witness :
  let s := sample_simulator tt {["gravity" := GRAVITY]} [] in
  let press := mkKeyEvent GLFW_KEY_P 0 GLFW_PRESS 0 7 9 in
  let release := mkKeyEvent GLFW_KEY_P 0 GLFW_RELEASE 0 0 0 in
  g_forces_ (key_callback (ext := quiet_externals) release
               (key_callback (ext := quiet_externals) press s))
  = g_forces_ s.
Proof.
  cbn zeta.
  assert (Hnone : g_forces_ (sample_simulator tt {["gravity" := GRAVITY]} [])
                  !! "P-force" = None)
    by (cbn; apply lookup_singleton_ne; discriminate).
  destruct (proj1 (key_press_then_release (ext := quiet_externals)
                     (mkKeyEvent GLFW_KEY_P 0 GLFW_PRESS 0 7 9)
                     (mkKeyEvent GLFW_KEY_P 0 GLFW_RELEASE 0 0 0)
                     (sample_simulator tt {["gravity" := GRAVITY]} [])
                     eq_refl eq_refl)
              eq_refl eq_refl Hnone) as (Hback & _).
  exact Hback.
Defined.

Lemma integrate_first_call_stands_still_witness :
  let s := set_boxes [box_at_origin 1 (Vec3 1 0 0)]
             (set_spheres [mkSphere vec3_zero (Vec3 0 1 0) 2 [1%nat]]
                (add_global_force "gravity" GRAVITY
                   (Simulator_ctor 1 tt 0))) in
  integrate_init (statics (integrate 5 s)) = false /\
  last_time_ (integrate 5 s) = 5 /\
  Forall2 (fun sp sp' => sphere_pos sp' = sphere_pos sp /\
                         sphere_vel sp' = sphere_vel sp /\
                         sphere_mass sp' = sphere_mass sp /\
                         colliders_ sp' = [])
          (spheres_ s) (spheres_ (integrate 5 s)) /\
  Forall2 (fun b b' => center b' = center b /\ P b' = P b /\ L b' = L b /\
                       inv_mass b' = inv_mass b)
          (boxes_ s) (boxes_ (integrate 5 s)).
Proof.
  cbn zeta. apply integrate_first_call_stands_still. left. reflexivity.
Defined.

Lemma mobile_box_momentum_witness :
  let box := box_at_origin 1 (Vec3 1 0 0) in
  let s := sample_simulator tt {["gravity" := GRAVITY]} [box] in
  exists box',
    boxes_ (integrate_boxes 1 s) !! 0%nat = Some box' /\
    P box' = vadd (P box)
               (smulv 1 (vsub (net (g_forces_ s))
                              (smulv (damping_ s) (vel box)))) /\
    vel box' = vmuls (P box') (inv_mass box) /\
    center box' = vadd (center box) (smulv 1 (vel box)).
Proof.
  cbn zeta.
  apply (mobile_box_momentum (Solver := unit) 1
           (sample_simulator tt {["gravity" := GRAVITY]}
              [box_at_origin 1 (Vec3 1 0 0)])
           0 (box_at_origin 1 (Vec3 1 0 0))).
  - reflexivity.
  - cbn. lra.
Defined.

Lemma box_angular_momentum_witness :
  let box := box_at_origin 1 (Vec3 1 0 0) in
  let s := sample_simulator tt {["gravity" := GRAVITY]} [box] in
  exists box',
    boxes_ (integrate_boxes 1 s) !! 0%nat = Some box' /\ L box' = L box.
Proof.
  cbn zeta.
  destruct (box_angular_momentum (Solver := unit) 1
              (sample_simulator tt {["gravity" := GRAVITY]}
                 [box_at_origin 1 (Vec3 1 0 0)])
              0 (box_at_origin 1 (Vec3 1 0 0)) eq_refl)
    as (box' & Hbox & _ & _ & Hkeep).
  exists box'. split; [exact Hbox|]. apply Hkeep. apply net_empty.
Defined.

Lemma low_sphere_latch_witness :
  let s := set_spheres [mkSphere vec3_zero vec3_zero 1 [];
                        mkSphere (Vec3 0 (-3) 0) vec3_zero 1 []]
             (sample_simulator tt {["gravity" := GRAVITY]} []) in
  lowSphere (statics (integrate_spheres 1 s)) = Some 1%nat.
Proof.
  cbn zeta.
  apply (proj2 (proj2 (low_sphere_latch (Solver := unit) 1
           (set_spheres [mkSphere vec3_zero vec3_zero 1 [];
                         mkSphere (Vec3 0 (-3) 0) vec3_zero 1 []]
              (sample_simulator tt {["gravity" := GRAVITY]} []))))
           1%nat (mkSphere (Vec3 0 (-3) 0) vec3_zero 1 [])).
  - reflexivity.
  - reflexivity.
  - cbn. lra.
  - intros j sp' Hj Hsp'. destruct j as [|j]; [|lia].
    injection Hsp' as <-. cbn. lra.
Defined.

Lemma init_registers_every_box_witness :
  let box := box_at_origin 0 vec3_zero in
  let s := init (Solver := unit) [] [box_at_origin 1 vec3_zero]
                box box box box box box (Simulator_ctor 0 tt 0) in
  bodies_ s !! 0%nat = Some 0%nat /\
  world_bodies (world_ s) !! 0%nat
  = Some (mkBody (box_transform (box_at_origin 1 vec3_zero)) (Some 0%nat)).
Proof.
  cbn zeta.
  destruct (init_registers_every_box (Solver := unit) 0 tt 0 []
              [box_at_origin 1 vec3_zero]
              (box_at_origin 0 vec3_zero) (box_at_origin 0 vec3_zero)
              (box_at_origin 0 vec3_zero) (box_at_origin 0 vec3_zero)
              (box_at_origin 0 vec3_zero) (box_at_origin 0 vec3_zero))
    as (_ & _ & _ & Hb & _ & Hreg & _).
  apply Hreg. rewrite Hb. reflexivity.
Defined.

Lemma integrate_boxes_syncs_world_witness :
  let box := box_at_origin 0 vec3_zero in
  let s := init (Solver := unit) [] [box_at_origin 1 (Vec3 1 0 0)]
                box box box box box box (Simulator_ctor 0 tt 0) in
  exists box',
    boxes_ (integrate_boxes 1 s) !! 0%nat = Some box' /\
    world_bodies (world_ (integrate_boxes 1 s)) !! 0%nat
    = Some (mkBody (mkTransform (center box') (orientation box'))
                   (Some 0%nat)).
Proof.
  cbn zeta.
  pose proof (init_registered (Solver := unit) 0 tt 0 []
                [box_at_origin 1 (Vec3 1 0 0)]
                (box_at_origin 0 vec3_zero) (box_at_origin 0 vec3_zero)
                (box_at_origin 0 vec3_zero) (box_at_origin 0 vec3_zero)
                (box_at_origin 0 vec3_zero) (box_at_origin 0 vec3_zero))
    as (Hb & _ & _ & _ & _ & _ & Hlow & _).
  cbn [boxes_ set_boxes app] in Hb, Hlow.
  destruct (Hlow 0%nat (box_at_origin 1 (Vec3 1 0 0))) as (Hbody & Hworld);
    [cbn; lia|reflexivity|].
  apply (integrate_boxes_syncs_world 1 _ 0 0 0
           (box_at_origin 1 (Vec3 1 0 0))).
  - exact Hbody.
  - unfold getUserData. now rewrite Hworld.
  - rewrite Hb. reflexivity.
Defined.

Lemma solved_line_reports_passes_witness :
  let s := sample_simulator (0%nat, false) ∅ [box_at_origin 1 vec3_zero] in
  exists s' tr,
    handle_collisions (ext := settling_externals 2) 31 s = Some s' /\
    log s' = log s ++ EvSphereCollisions :: tr ++ solved_message (passes tr) /\
    Forall (fun e => is_output e = false) tr.
Proof.
  cbn zeta.
  destruct (handle_collisions_shape (ext := settling_externals 2) 31
              (sample_simulator (0%nat, false) ∅ [box_at_origin 1 vec3_zero])
              (settling_query_decides_loop 2) (le_n 31))
    as (k & tail & s' & Hrun & _).
  destruct (solved_line_reports_passes (ext := settling_externals 2)
              _ _ _ Hrun) as (tr & Hlog & Hout & _).
  exists s', tr. split_and!; assumption.
Defined.

Lemma main_spheres_n_positive_witness :
  main_spheres_n (fun _ => 5%Z) ["CFD"; "5"] = 5%N /\
  main_spheres_n (fun _ => 0%Z) ["CFD"] = 3000%N.
Proof.
  split.
  - apply (proj2 (proj2 (main_spheres_n_positive (fun _ => 5%Z)
                           ["CFD"; "5"])) "CFD" "5" eq_refl).
  - apply (proj1 (proj2 (main_spheres_n_positive (fun _ => 0%Z) ["CFD"]))).
    cbn. lia.
Defined.

Lemma earlier_box_step_witness :
  let box := Earlier.mkBox vec3_zero (Vec3 1 0 0) 2 vec3_zero quat_identity
                           mat3_zero in
  let box' := Earlier.integrate_box 1 0.09 {["gravity" := GRAVITY]} ∅ box in
  Earlier.vel box'
  = vadd (Earlier.vel box)
      (smulv 1 (vdivs (vsub (net {["gravity" := GRAVITY]})
                            (smulv 0.09 (Earlier.vel box)))
                      (Earlier.mass box))) /\
  qlength (Earlier.orientation box') = 1.
Proof.
  cbn zeta.
  apply (earlier_box_step 1 0.09 {["gravity" := GRAVITY]} ∅
           (Earlier.mkBox vec3_zero (Vec3 1 0 0) 2 vec3_zero quat_identity
                          mat3_zero)).
  cbn. lra.
Defined.

Lemma world_inverse_inertia_witness :
  let box :=
    mkBox (Vec3 1 1 1) vec3_zero (Vec3 1 1 1) vec3_zero vec3_zero 1
          quat_identity (Mat3 6 0 0 0 6 0 0 0 6) mat3_zero vec3_zero
          vec3_zero in
  IInv (integrate_box 1 0.09 ∅ ∅ box) = IBodyInv box.
Proof.
  cbn zeta.
  apply (proj2 (world_inverse_inertia 1 0.09 ∅ ∅ _) 6).
  - apply qlength_identity.
  - reflexivity.
Defined.
